(** * 2048: the grid engine of [2048.py], embedded and verified

    The Python program is embedded shallowly.  Python integers are [Z],
    lists are [list], [None]-able slots are [option], the direction is
    the string the code compares against, and every method of [Grid]
    becomes a function that takes the grid and returns the updated one.
    Three effects of the source are made explicit:

    - exceptions: list indexing raises [IndexError] and attribute access
      on [None] raises [AttributeError]; computations live in [outcome];
    - the [while] loop of [shift_and_merge] is bounded by a fuel argument
      that counts executions of its body; running out is the separate
      outcome [OutOfFuel], and the theorems show it does not happen;
    - the global [random] module is a tape of draws with a cursor.

    A slot owns its tile: no method of the program stores one [Block]
    object in two slots, so the in-place [update_value] of the tile in a
    slot is the replacement of that slot's content. *)

From Stdlib Require Import ZArith Lia.
From stdpp Require Import base option list strings gmap.

#[local] Set Warnings "-clear-no-such-hyp".
Local Open Scope Z_scope.

(** ** Outcomes of a Python computation *)

Inductive exn : Type := IndexError | AttributeError.

Inductive outcome (A : Type) : Type :=
| Ok (a : A)
| Raise (e : exn)
| OutOfFuel.

Arguments Ok {A} a.
Arguments Raise {A} e.
Arguments OutOfFuel {A}.

#[global] Instance outcome_ret : MRet outcome := λ A a, Ok a.

#[global] Instance outcome_bind : MBind outcome := λ A B f m,
  match m with
  | Ok a => f a
  | Raise e => Raise e
  | OutOfFuel => OutOfFuel
  end.

#[global] Instance outcome_fmap : FMap outcome := λ A B f m,
  match m with
  | Ok a => Ok (f a)
  | Raise e => Raise e
  | OutOfFuel => OutOfFuel
  end.

(** ** The fragment of Python the program uses *)

(** [range(n)] *)
Definition range (n : Z) : list Z := Z.of_nat <$> seq 0 (Z.to_nat n).

(** [range(start, stop, -1)] *)
Definition range_down (start stop : Z) : list Z :=
  (λ k, start - Z.of_nat k) <$> seq 0 (Z.to_nat (start - stop)).

(** [l[i]]: a negative index counts from the end, an index outside the
    list raises. *)
Definition getitem {A} (l : list A) (i : Z) : outcome A :=
  let n := Z.of_nat (length l) in
  let k := if i <? 0 then i + n else i in
  if (0 <=? k) && (k <? n)
  then match l !! Z.to_nat k with
       | Some x => Ok x
       | None => Raise IndexError
       end
  else Raise IndexError.

(** [l[i] = x] *)
Definition setitem {A} (l : list A) (i : Z) (x : A) : outcome (list A) :=
  let n := Z.of_nat (length l) in
  let k := if i <? 0 then i + n else i in
  if (0 <=? k) && (k <? n)
  then Ok (<[Z.to_nat k := x]> l)
  else Raise IndexError.

(** [m[i][j]] and [m[i][j] = x] on a list of rows.  The rows of both
    matrices of the program are built by a comprehension, one fresh list
    per row, so writing into one row leaves the others alone. *)
Definition getitem2 {A} (m : list (list A)) (i j : Z) : outcome A :=
  row ← getitem m i; getitem row j.

Definition setitem2 {A} (m : list (list A)) (i j : Z) (x : A)
  : outcome (list (list A)) :=
  row ← getitem m i; row' ← setitem row j x; setitem m i row'.

(** The process-wide random source: the draws it will hand out, and how
    many were consumed. *)
Record Random : Type := { tape : nat → nat; cursor : nat }.

(** [random.choice(seq)]: one draw, reduced below [len(seq)]; raises on
    an empty sequence. *)
Definition advance (r : Random) : Random :=
  {| tape := tape r; cursor := S (cursor r) |}.

Definition choice {A} (seq : list A) (r : Random) : outcome (A * Random) :=
  match seq !! (tape r (cursor r) mod length seq)%nat with
  | Some x => Ok (x, advance r)
  | None => Raise IndexError
  end.

(** ** Block *)

Record Block : Type := { value : Z; position : Z * Z }.

(** [Block.__init__] *)
Definition Block_init (x y v : Z) : Block :=
  {| value := v; position := (x, y) |}.

(** [Block.update_value]: [self.value *= 2] *)
Definition update_value (b : Block) : Block :=
  {| value := value b * 2; position := position b |}.

(** [BlockFactory.create_block] *)
Definition create_block (x y : Z) (r : Random) : outcome (Block * Random) :=
  '(v, r') ← choice [2; 4] r; Ok (Block_init x y v, r').

(** ** Grid *)

Record Grid : Type := { size : Z; grid : list (list (option Block)) }.

Definition with_grid (g : Grid) (m : list (list (option Block))) : Grid :=
  {| size := size g; grid := m |}.

(** [self.grid[i][j]] *)
Definition slot (g : Grid) (i j : Z) : outcome (option Block) :=
  getitem2 (grid g) i j.

(** [self.grid[i][j] = s] *)
Definition set_slot (g : Grid) (i j : Z) (s : option Block) : outcome Grid :=
  with_grid g <$> setitem2 (grid g) i j s.

(** [self.grid[i][j].value] *)
Definition slot_value (g : Grid) (i j : Z) : outcome Z :=
  s ← slot g i j;
  match s with
  | Some b => Ok (value b)
  | None => Raise AttributeError
  end.

(** [0 <= i < self.size and 0 <= j < self.size] *)
Definition in_grid (g : Grid) (i j : Z) : bool :=
  (0 <=? i) && (i <? size g) && ((0 <=? j) && (j <? size g)).

(** The comprehension of [spawn_new_tile], one row at a time. *)
Fixpoint empty_in_row (g : Grid) (i : Z) (js : list Z) : outcome (list (Z * Z)) :=
  match js with
  | [] => Ok []
  | j :: js' =>
      s ← slot g i j;
      rest ← empty_in_row g i js';
      Ok (match s with None => (i, j) :: rest | Some _ => rest end)
  end.

Fixpoint empty_in_rows (g : Grid) (rows : list Z) : outcome (list (Z * Z)) :=
  match rows with
  | [] => Ok []
  | i :: rows' =>
      here ← empty_in_row g i (range (size g));
      rest ← empty_in_rows g rows';
      Ok (here ++ rest)
  end.

Definition empty_positions (g : Grid) : outcome (list (Z * Z)) :=
  empty_in_rows g (range (size g)).

(** [Grid.spawn_new_tile] *)
Definition spawn_new_tile (g : Grid) (r : Random) : outcome (Grid * Random) :=
  ep ← empty_positions g;
  match ep with
  | [] => Ok (g, r)
  | _ :: _ =>
      '(xy, r1) ← choice ep r;
      let '(x, y) := xy in
      '(b, r2) ← create_block x y r1;
      g' ← set_slot g x y (Some b);
      Ok (g', r2)
  end.

(** [Grid.__init__] *)
Definition Grid_init (n : Z) (r : Random) : outcome (Grid * Random) :=
  let self :=
    {| size := n; grid := (λ _, (λ _, None) <$> range n) <$> range n |} in
  '(self, r) ← spawn_new_tile self r;
  spawn_new_tile self r.

(** [Grid.get_new_position] *)
Definition get_new_position (i j : Z) (direction : string) : Z * Z :=
  if String.eqb direction "up" then (i - 1, j)
  else if String.eqb direction "down" then (i + 1, j)
  else if String.eqb direction "left" then (i, j - 1)
  else if String.eqb direction "right" then (i, j + 1)
  else (i, j).

(** A [for] loop whose body may [return True]. *)
Fixpoint for_any (body : Z → outcome bool) (l : list Z) : outcome bool :=
  match l with
  | [] => Ok false
  | x :: l' => b ← body x; if b : bool then Ok true else for_any body l'
  end.

(** The body of the inner loop of [is_valid_move]; [true] stands for
    [return True]. *)
Definition movable (g : Grid) (direction : string) (i j : Z) : outcome bool :=
  s ← slot g i j;
  match s with
  | None => Ok false
  | Some _ =>
      let '(new_i, new_j) := get_new_position i j direction in
      if in_grid g new_i new_j then
        t ← slot g new_i new_j;
        match t with
        | None => Ok true
        | Some _ =>
            v ← slot_value g new_i new_j;
            w ← slot_value g i j;
            Ok (v =? w)
        end
      else Ok false
  end.

(** [Grid.is_valid_move] *)
Definition is_valid_move (g : Grid) (direction : string) : outcome bool :=
  for_any (λ i, for_any (λ j, movable g direction i j) (range (size g)))
          (range (size g)).

(** The [while] loop of [shift_and_merge].  Its test costs no fuel; each
    execution of its body costs one unit. *)
Fixpoint slide (fuel : nat) (direction : string) (g : Grid) (i j ni nj : Z)
  : outcome (Grid * (Z * Z) * (Z * Z)) :=
  c ← (if in_grid g ni nj
       then s ← slot g ni nj; Ok (bool_decide (s = None))
       else Ok false);
  if c : bool then
    match fuel with
    | O => OutOfFuel
    | S fuel' =>
        t ← slot g i j;
        g ← set_slot g ni nj t;
        g ← set_slot g i j None;
        let '(i, j) := (ni, nj) in
        let '(ni, nj) := get_new_position i j direction in
        slide fuel' direction g i j ni nj
    end
  else Ok (g, (i, j), (ni, nj)).

(** The body of the inner [for] loop of [shift_and_merge].  The loop
    variable [i] is assigned inside the body, and the outer loop binds it
    again only when the inner loop is over: the body returns its [i]. *)
Definition shift_cell (fuel : nat) (direction : string)
    (g : Grid) (merged : list (list bool)) (i j : Z)
  : outcome (Grid * list (list bool) * Z) :=
  s ← slot g i j;
  match s with
  | None => Ok (g, merged, i)
  | Some _ =>
      let '(ni, nj) := get_new_position i j direction in
      '(g, (i, j), (ni, nj)) ← slide fuel direction g i j ni nj;
      if in_grid g ni nj then
        t ← slot g ni nj;
        match t with
        | None => Ok (g, merged, i)
        | Some tb =>
            v ← slot_value g ni nj;
            w ← slot_value g i j;
            if v =? w then
              m ← getitem2 merged ni nj;
              if m : bool then Ok (g, merged, i)
              else
                g ← set_slot g ni nj (Some (update_value tb));
                g ← set_slot g i j None;
                merged ← setitem2 merged ni nj true;
                Ok (g, merged, i)
            else Ok (g, merged, i)
        end
      else Ok (g, merged, i)
  end.

(** [for j in range_order: ...] for the current [i]. *)
Fixpoint shift_row (fuel : nat) (direction : string) (js : list Z)
    (g : Grid) (merged : list (list bool)) (i : Z)
  : outcome (Grid * list (list bool) * Z) :=
  match js with
  | [] => Ok (g, merged, i)
  | j :: js' =>
      '(g, merged, i) ← shift_cell fuel direction g merged i j;
      shift_row fuel direction js' g merged i
  end.

(** [for i in range_order: for j in range_order: ...] *)
Fixpoint shift_rows (fuel : nat) (direction : string) (rows js : list Z)
    (g : Grid) (merged : list (list bool))
  : outcome (Grid * list (list bool)) :=
  match rows with
  | [] => Ok (g, merged)
  | i :: rows' =>
      '(g, merged, _) ← shift_row fuel direction js g merged i;
      shift_rows fuel direction rows' js g merged
  end.

(** [range_order] *)
Definition range_order (g : Grid) (direction : string) : list Z :=
  if existsb (String.eqb direction) ["down"; "right"]
  then range (size g)
  else range_down (size g - 1) (-1).

(** [shift_and_merge] between the validity gate and the spawn. *)
Definition shift_tiles (fuel : nat) (g : Grid) (direction : string)
  : outcome Grid :=
  let merged :=
    (λ _, replicate (Z.to_nat (size g)) false) <$> range (size g) in
  let order := range_order g direction in
  '(g, _) ← shift_rows fuel direction order order g merged;
  Ok g.

(** [Grid.shift_and_merge] *)
Definition shift_and_merge (fuel : nat) (g : Grid) (direction : string)
    (r : Random) : outcome (bool * Grid * Random) :=
  valid ← is_valid_move g direction;
  if negb valid then Ok (false, g, r)
  else
    g ← shift_tiles fuel g direction;
    '(g, r) ← spawn_new_tile g r;
    Ok (true, g, r).

(** ** Printing and the controller *)

Inductive printed : Type :=
| PrintStr (s : string)
| PrintList (l : list Z).

(** [Grid.print_grid]; a [Block] object is truthy. *)
Definition print_grid (g : Grid) : list printed :=
  ((λ row : list (option Block),
      PrintList ((λ block, match block with
                           | Some b => value b
                           | None => 0
                           end) <$> row)) <$> grid g)
  ++ [PrintStr "
"].

Inductive MoveStrategy : Type := MoveUp | MoveDown | MoveLeft | MoveRight.

(** [MoveStrategy.move], by dynamic dispatch on the four subclasses. *)
Definition move (s : MoveStrategy) (fuel : nat) (g : Grid) (r : Random)
  : outcome (bool * Grid * Random) :=
  match s with
  | MoveUp => shift_and_merge fuel g "up" r
  | MoveDown => shift_and_merge fuel g "down" r
  | MoveLeft => shift_and_merge fuel g "left" r
  | MoveRight => shift_and_merge fuel g "right" r
  end.

Record GameController : Type :=
  { game_grid : Grid; moves : gmap string MoveStrategy }.

(** The dictionary built by [GameController.__init__]. *)
Definition default_moves : gmap string MoveStrategy :=
  <["up" := MoveUp]> (<["down" := MoveDown]>
    (<["left" := MoveLeft]> (<["right" := MoveRight]> ∅))).

(** [GameController.__init__] *)
Definition GameController_init (r : Random) : outcome (GameController * Random) :=
  '(g, r) ← Grid_init 4 r;
  Ok ({| game_grid := g; moves := default_moves |}, r).

(** [GameController.play_move]: the controller after the call, the
    random source, and what was printed. *)
Definition play_move (fuel : nat) (c : GameController) (direction : string)
    (r : Random) : outcome (GameController * Random * list printed) :=
  match moves c !! direction with
  | None => Ok (c, r, [PrintStr "Invalid move"])
  | Some strategy =>
      '(moved, g, r) ← move strategy fuel (game_grid c) r;
      let c := {| game_grid := g; moves := moves c |} in
      if moved : bool then Ok (c, r, print_grid g)
      else Ok (c, r, [PrintStr "Move not possible!"])
  end.

(** The values on the board, [None] for an empty slot. *)
Definition cells (g : Grid) : list (list (option Z)) :=
  (λ row : list (option Block), (λ s : option Block, value <$> s) <$> row) <$> grid g.

(** A slot holding a tile of value [v] that stores the position [p]. *)
Definition tile (v : Z) (p : Z * Z) : option Block :=
  Some {| value := v; position := p |}.

(** A fresh random source whose every draw is [n]. *)
Definition const_tape (n : nat) : Random := {| tape := λ _, n; cursor := 0 |}.

(** ** The vocabulary of the statements *)

(** The pure reading and writing of a matrix at coordinates that are
    known to be non-negative. *)
Definition mget {A} (m : list (list A)) (i j : Z) : option A :=
  row ← m !! Z.to_nat i; row !! Z.to_nat j.

Definition mset {A} (m : list (list A)) (i j : Z) (x : A) : list (list A) :=
  match m !! Z.to_nat i with
  | Some row => <[Z.to_nat i := <[Z.to_nat j := x]> row]> m
  | None => m
  end.

(** An [n] by [n] matrix. *)
Definition rect {A} (n : Z) (m : list (list A)) : Prop :=
  length m = Z.to_nat n ∧ ∀ row, row ∈ m → length row = Z.to_nat n.

Definition inb (n i j : Z) : Prop := (0 ≤ i < n) ∧ (0 ≤ j < n).

(** The class invariant of [Grid]: [size] rows of [size] slots. *)
Definition wf (g : Grid) : Prop := rect (size g) (grid g).

(** The content of slot [(i, j)], when the board has such a slot. *)
Definition cell (g : Grid) (i j : Z) : option (option Block) :=
  mget (grid g) i j.

(** The board with slot [(i, j)] overwritten. *)
Definition put (g : Grid) (i j : Z) (s : option Block) : Grid :=
  with_grid g (mset (grid g) i j s).

(** The tiles on the board, row by row. *)
Definition tiles (g : Grid) : list Block := omap id (concat (grid g)).

Definition zsum (l : list Z) : Z := foldr Z.add 0 l.

(** The sum of the tile values on the board. *)
Definition total (g : Grid) : Z := zsum (value <$> tiles g).

(** The number of empty slots. *)
Definition empties (g : Grid) : nat :=
  length (filter (λ s : option Block, s = None) (concat (grid g))).

Definition to_list {A} (o : option A) : list A :=
  match o with Some a => [a] | None => [] end.

(** Every slot of the board can be read. *)
Definition readable (g : Grid) : Prop :=
  ∀ i j, inb (size g) i j → ∃ s, slot g i j = Ok s.

(** What one call of [spawn_new_tile] does to a board and to the random
    source: nothing on a full board, otherwise one empty slot receives a
    fresh tile and two draws are consumed. *)
Definition spawned (g : Grid) (r : Random) (g' : Grid) (r' : Random) : Prop :=
  ((∀ x y, inb (size g) x y → cell g x y ≠ Some None) ∧ g' = g ∧ r' = r) ∨
  (∃ x y v, inb (size g) x y ∧ cell g x y = Some None ∧ (v = 2 ∨ v = 4) ∧
            g' = put g x y (Some (Block_init x y v)) ∧
            r' = advance (advance r)).

(** How many cells lie ahead of [(i, j)] in a direction. *)
Definition room (direction : string) (n i j : Z) : nat :=
  if String.eqb direction "up" then Z.to_nat i
  else if String.eqb direction "down" then Z.to_nat (n - 1 - i)
  else if String.eqb direction "left" then Z.to_nat j
  else if String.eqb direction "right" then Z.to_nat (n - 1 - j)
  else 0%nat.

(** One execution of the body of the [while] loop, or one execution of
    the three assignments of the merge. *)
Inductive step (d : string) : Grid → Grid → Prop :=
| step_slide g i j ni nj t :
    get_new_position i j d = (ni, nj) →
    inb (size g) i j → inb (size g) ni nj →
    cell g i j = Some (Some t) → cell g ni nj = Some None →
    step d g (put (put g ni nj (Some t)) i j None)
| step_merge g i j ni nj t u :
    get_new_position i j d = (ni, nj) →
    inb (size g) i j → inb (size g) ni nj →
    cell g i j = Some (Some t) → cell g ni nj = Some (Some u) →
    value u = value t →
    step d g (put (put g ni nj (Some (update_value u))) i j None).

(** The keys of the controller's dispatch table. *)
Definition known (d : string) : Prop :=
  d = "up" ∨ d = "down" ∨ d = "left" ∨ d = "right".

(** The board of [Grid.__init__] before its two spawns. *)
Definition blank (n : Z) : Grid :=
  {| size := n; grid := (λ _, (λ _, None) <$> range n) <$> range n |}.

(** [g'] is [g] with one tile of value 2 or 4 placed in an empty slot. *)
Definition one_tile_spawned (g g' : Grid) : Prop :=
  ∃ x y v, inb (size g) x y ∧ cell g x y = Some None ∧ (v = 2 ∨ v = 4) ∧
           g' = put g x y (Some (Block_init x y v)).

(** A tile's stored coordinates are those of its slot. *)
Definition consistent (g : Grid) : Prop :=
  ∀ i j b, 0 ≤ i → 0 ≤ j → cell g i j = Some (Some b) → position b = (i, j).

Definition empty_row : list (option Block) := [None; None; None; None].

(** The board whose first row is given and whose other rows are empty. *)
Definition row0 (a b c d : option Block) : Grid :=
  {| size := 4; grid := [[a; b; c; d]; empty_row; empty_row; empty_row] |}.

Definition no_values : list (option Z) := [None; None; None; None].

Definition full_2x2 : Grid :=
  {| size := 2;
     grid := [[tile 2 (0, 0); tile 4 (0, 1)]; [tile 4 (1, 0); tile 2 (1, 1)]] |}.

(** The controller built by [GameController.__init__] around a grid. *)
Definition controller (g : Grid) : GameController :=
  {| game_grid := g; moves := default_moves |}.

(** The statements of [shift_and_merge] that follow its [while] loop,
    for the tile in slot [(i, j)] and its neighbour [(ni, nj)]. *)
Definition merge_step (g : Grid) (merged : list (list bool)) (i j ni nj : Z)
  : outcome (Grid * list (list bool) * Z) :=
  if in_grid g ni nj then
    t ← slot g ni nj;
    match t with
    | None => Ok (g, merged, i)
    | Some tb =>
        v ← slot_value g ni nj;
        w ← slot_value g i j;
        if v =? w then
          m ← getitem2 merged ni nj;
          if m : bool then Ok (g, merged, i)
          else
            g ← set_slot g ni nj (Some (update_value tb));
            g ← set_slot g i j None;
            merged ← setitem2 merged ni nj true;
            Ok (g, merged, i)
        else Ok (g, merged, i)
    end
  else Ok (g, merged, i).

(** The tile of slot [(i, j)] can slide or merge in direction [d]: the
    condition that [is_valid_move] looks for. *)
Definition movable_at (g : Grid) (d : string) (i j : Z) : Prop :=
  inb (size g) i j ∧
  ∃ t ni nj,
    cell g i j = Some (Some t) ∧ get_new_position i j d = (ni, nj) ∧
    inb (size g) ni nj ∧
    (cell g ni nj = Some None ∨
     ∃ u, cell g ni nj = Some (Some u) ∧ value u = value t).

(** The coordinates of an [n] by [n] board, row by row. *)
Definition coords (n : Z) : list (Z * Z) :=
  i ← range n; (λ j, (i, j)) <$> range n.

(** The sum over the slots of a board of a quantity that depends on the
    slot's coordinates and content. *)
Definition board_sum (F : Z → Z → option Block → Z) (g : Grid) : Z :=
  zsum ((λ c : Z * Z, F c.1 c.2 (default None (cell g c.1 c.2)))
          <$> coords (size g)).

(** Every tile counts one plus the number of cells ahead of it. *)
Definition potential (d : string) (g : Grid) : Z :=
  board_sum (λ i j s, match s with
                      | Some _ => 1 + Z.of_nat (room d (size g) i j)
                      | None => 0
                      end) g.

(** The coordinate that a move in direction [d] leaves alone: the column
    for "up" and "down", the row otherwise. *)
Definition lane (d : string) (i j : Z) : Z :=
  if String.eqb d "up" || String.eqb d "down" then j else i.

(** The sum of the tile values in lane [k]. *)
Definition lane_total (d : string) (k : Z) (g : Grid) : Z :=
  board_sum (λ i j s, if lane d i j =? k
                      then match s with Some b => value b | None => 0 end
                      else 0) g.

(** Every tile value is one of 2, 4, 8, ... *)
Definition powers_of_two (g : Grid) : Prop :=
  ∀ b, b ∈ tiles g → ∃ k : nat, value b = 2 ^ Z.of_nat (S k).

(** * Proofs *)

(** ** Lists indexed by Python integers *)

Lemma getitem_lookup {A} (l : list A) i x :
  0 ≤ i → l !! Z.to_nat i = Some x → getitem l i = Ok x.
Proof.
  intros Hi Hx. pose proof (lookup_lt_Some _ _ _ Hx) as Hlt.
  unfold getitem. rewrite (proj2 (Z.ltb_ge i 0)) by lia.
  rewrite (proj2 (Z.leb_le 0 i)) by lia.
  rewrite (proj2 (Z.ltb_lt i _)) by lia.
  simpl. by rewrite Hx.
Qed.

Lemma setitem_lookup {A} (l : list A) i x y :
  0 ≤ i → l !! Z.to_nat i = Some y →
  setitem l i x = Ok (<[Z.to_nat i := x]> l).
Proof.
  intros Hi Hy. pose proof (lookup_lt_Some _ _ _ Hy) as Hlt.
  unfold setitem. rewrite (proj2 (Z.ltb_ge i 0)) by lia.
  rewrite (proj2 (Z.leb_le 0 i)) by lia.
  by rewrite (proj2 (Z.ltb_lt i _)) by lia.
Qed.

Section indexing.
Context {A : Type}.
Implicit Types (l : list A) (m : list (list A)).

Lemma getitem2_mget m i j x :
  0 ≤ i → 0 ≤ j → mget m i j = Some x → getitem2 m i j = Ok x.
Proof.
  unfold mget, getitem2. intros Hi Hj Hx.
  destruct (m !! Z.to_nat i) as [row|] eqn:Hrow; [|done].
  rewrite (getitem_lookup _ _ _ Hi Hrow). simpl in *.
  by apply getitem_lookup.
Qed.

Lemma setitem2_mget m i j x y :
  0 ≤ i → 0 ≤ j → mget m i j = Some y →
  setitem2 m i j x = Ok (mset m i j x).
Proof.
  unfold mget, setitem2, mset. intros Hi Hj Hy.
  destruct (m !! Z.to_nat i) as [row|] eqn:Hrow; [|done].
  rewrite (getitem_lookup _ _ _ Hi Hrow). simpl in *.
  rewrite (setitem_lookup _ _ x _ Hj Hy). simpl.
  by apply setitem_lookup with row.
Qed.

Lemma rect_mget n m i j : rect n m → inb n i j → is_Some (mget m i j).
Proof.
  intros [Hlen Hrows] [Hi Hj]. unfold mget.
  destruct (lookup_lt_is_Some_2 m (Z.to_nat i)) as [row Hrow]; [lia|].
  rewrite Hrow. simpl. apply lookup_lt_is_Some_2.
  rewrite (Hrows row) by (by eapply list_elem_of_lookup_2). lia.
Qed.

Lemma rect_mset n m i j x : rect n m → rect n (mset m i j x).
Proof.
  intros [Hlen Hrows]. unfold mset.
  destruct (m !! Z.to_nat i) as [row|] eqn:Hrow; [|done].
  split; [by rewrite length_insert|].
  intros row' [k Hk]%list_elem_of_lookup_1.
  destruct (decide (Z.to_nat i = k)) as [Heq|Hne].
  - subst k. rewrite list_lookup_insert_eq in Hk by (by eapply lookup_lt_Some).
    injection Hk as <-. rewrite length_insert.
    apply Hrows. by eapply list_elem_of_lookup_2.
  - rewrite list_lookup_insert_ne in Hk by done.
    apply Hrows. by eapply list_elem_of_lookup_2.
Qed.

Lemma mget_mset_eq m i j x :
  is_Some (mget m i j) → mget (mset m i j x) i j = Some x.
Proof.
  unfold mget, mset. intros [y Hy].
  destruct (m !! Z.to_nat i) as [row|] eqn:Hrow; [|done]. simpl in Hy.
  rewrite list_lookup_insert_eq by (by eapply lookup_lt_Some). simpl.
  apply list_lookup_insert_eq. by eapply lookup_lt_Some.
Qed.

Lemma mget_mset_ne m i j i' j' x :
  0 ≤ i → 0 ≤ j → 0 ≤ i' → 0 ≤ j' → (i, j) ≠ (i', j') →
  mget (mset m i j x) i' j' = mget m i' j'.
Proof.
  unfold mget, mset. intros Hi Hj Hi' Hj' Hne.
  destruct (m !! Z.to_nat i) as [row|] eqn:Hrow; [|done].
  destruct (decide (Z.to_nat i = Z.to_nat i')) as [Heq|Hni].
  - rewrite <- Heq, Hrow.
    rewrite list_lookup_insert_eq by (by eapply lookup_lt_Some). simpl.
    apply list_lookup_insert_ne. intros Hjj. apply Hne. f_equal; lia.
  - by rewrite list_lookup_insert_ne.
Qed.

Lemma mset_id m i j x : mget m i j = Some x → mset m i j x = m.
Proof.
  unfold mget, mset. intros Hx.
  destruct (m !! Z.to_nat i) as [row|] eqn:Hrow; [|done]. simpl in Hx.
  apply list_insert_id. by rewrite list_insert_id.
Qed.

Lemma mset_mset m i j x y :
  mset (mset m i j x) i j y = mset m i j y.
Proof.
  unfold mset.
  destruct (m !! Z.to_nat i) as [row|] eqn:Hrow; [|by rewrite Hrow].
  rewrite list_lookup_insert_eq by (by eapply lookup_lt_Some).
  by rewrite list_insert_insert_eq, list_insert_insert_eq.
Qed.

Lemma mset_alter m i j x :
  mset m i j x = alter (<[Z.to_nat j := x]>) (Z.to_nat i) m.
Proof.
  unfold mset. apply list_eq. intros k.
  destruct (m !! Z.to_nat i) as [row|] eqn:Hrow.
  - destruct (decide (Z.to_nat i = k)) as [Heq|Hne].
    + subst k. rewrite list_lookup_insert_eq by (by eapply lookup_lt_Some).
      by rewrite list_lookup_alter_eq, Hrow.
    + by rewrite list_lookup_insert_ne, list_lookup_alter_ne.
  - rewrite list_lookup_alter. case_decide; [|done]. subst k.
    by rewrite Hrow.
Qed.

Lemma mset_comm m i j i' j' x y :
  0 ≤ i → 0 ≤ j → 0 ≤ i' → 0 ≤ j' → (i, j) ≠ (i', j') →
  mset (mset m i j x) i' j' y = mset (mset m i' j' y) i j x.
Proof.
  intros Hi Hj Hi' Hj' Hne. rewrite !mset_alter.
  destruct (decide (Z.to_nat i = Z.to_nat i')) as [Heq|Hni].
  - rewrite Heq, !list_alter_alter_eq. apply list_alter_ext; [|done].
    intros row _. simpl. apply list_insert_insert_ne.
    intros Hjj. apply Hne. f_equal; lia.
  - by apply list_alter_alter_ne.
Qed.

(** Writing one entry changes one element of the flattened matrix. *)
Lemma concat_mset m i j y :
  mget m i j = Some y →
  ∃ l1 l2, concat m = l1 ++ y :: l2 ∧
           ∀ x, concat (mset m i j x) = l1 ++ x :: l2.
Proof.
  unfold mget, mset. intros Hy.
  destruct (m !! Z.to_nat i) as [row|] eqn:Hrow; [|done]. simpl in Hy.
  exists (concat (take (Z.to_nat i) m) ++ take (Z.to_nat j) row),
         (drop (S (Z.to_nat j)) row ++ concat (drop (S (Z.to_nat i)) m)).
  split.
  - rewrite <- (take_drop_middle m _ _ Hrow) at 1.
    rewrite concat_app, concat_cons.
    rewrite <- (take_drop_middle row _ _ Hy) at 1.
    by rewrite <- !app_assoc.
  - intros x.
    rewrite insert_take_drop by (by eapply lookup_lt_Some).
    rewrite concat_app, concat_cons.
    rewrite insert_take_drop by (by eapply lookup_lt_Some).
    by rewrite <- !app_assoc.
Qed.

Lemma mget_concat m i j x : mget m i j = Some x → x ∈ concat m.
Proof.
  intros (l1 & l2 & -> & _)%concat_mset. set_solver.
Qed.

Lemma concat_mget m x :
  x ∈ concat m → ∃ i j, 0 ≤ i ∧ 0 ≤ j ∧ mget m i j = Some x.
Proof.
  intros Hx. apply list_elem_of_In, in_concat in Hx as (row & Hrow & Hin).
  apply list_elem_of_In, list_elem_of_lookup_1 in Hrow as [i Hi].
  apply list_elem_of_In, list_elem_of_lookup_1 in Hin as [j Hj].
  exists (Z.of_nat i), (Z.of_nat j). unfold mget.
  rewrite !Nat2Z.id, Hi. simpl. split_and!; [lia..|done].
Qed.

Lemma rect_length_concat n m :
  rect n m → length (concat m) = (Z.to_nat n * Z.to_nat n)%nat.
Proof.
  intros [Hlen Hrows]. rewrite <- Hlen at 1. clear Hlen.
  induction m as [|row m IH]; [done|]. simpl.
  rewrite length_app, (Hrows row), IH; [done| |]; set_solver.
Qed.

End indexing.

Lemma getitem_Ok {A} (l : list A) i x :
  0 ≤ i → getitem l i = Ok x → l !! Z.to_nat i = Some x.
Proof.
  intros Hi. unfold getitem. rewrite (proj2 (Z.ltb_ge i 0)) by lia.
  destruct (_ && _); [|done].
  destruct (l !! Z.to_nat i); [|done]. by intros [= ->].
Qed.

Lemma getitem2_Ok {A} (m : list (list A)) i j x :
  0 ≤ i → 0 ≤ j → getitem2 m i j = Ok x → mget m i j = Some x.
Proof.
  intros Hi Hj. unfold getitem2, mget.
  destruct (getitem m i) as [row| |] eqn:Hrow; [|done..].
  apply getitem_Ok in Hrow; [|done]. rewrite Hrow. simpl.
  by apply getitem_Ok.
Qed.

Lemma elem_of_range n x : x ∈ range n ↔ 0 ≤ x < n.
Proof.
  unfold range. rewrite list_elem_of_fmap. split.
  - intros (k & -> & Hk%elem_of_seq). lia.
  - intros Hx. exists (Z.to_nat x). rewrite elem_of_seq. lia.
Qed.

Lemma elem_of_range_down n x : x ∈ range_down (n - 1) (-1) ↔ 0 ≤ x < n.
Proof.
  unfold range_down. rewrite list_elem_of_fmap. split.
  - intros (k & -> & Hk%elem_of_seq). lia.
  - intros Hx. exists (Z.to_nat (n - 1 - x)). rewrite elem_of_seq. lia.
Qed.

Lemma NoDup_range_down n : NoDup (range_down (n - 1) (-1)).
Proof.
  unfold range_down. apply NoDup_fmap_2_strong; [|apply NoDup_seq].
  intros x y _ _. lia.
Qed.

(** ** The board as a whole *)

Lemma in_grid_inb g i j : in_grid g i j = true ↔ inb (size g) i j.
Proof.
  unfold in_grid, inb.
  rewrite !andb_true_iff, !Z.leb_le, !Z.ltb_lt. tauto.
Qed.

Lemma in_grid_false g i j : in_grid g i j = false ↔ ¬ inb (size g) i j.
Proof. rewrite <- in_grid_inb. by destruct (in_grid g i j). Qed.

Lemma slot_cell g i j s :
  0 ≤ i → 0 ≤ j → cell g i j = Some s → slot g i j = Ok s.
Proof. apply getitem2_mget. Qed.

Lemma slot_Ok g i j s :
  0 ≤ i → 0 ≤ j → slot g i j = Ok s → cell g i j = Some s.
Proof. apply getitem2_Ok. Qed.

Lemma slot_value_cell g i j b :
  0 ≤ i → 0 ≤ j → cell g i j = Some (Some b) → slot_value g i j = Ok (value b).
Proof.
  intros Hi Hj Hb. unfold slot_value. by rewrite (slot_cell _ _ _ _ Hi Hj Hb).
Qed.

Lemma set_slot_cell g i j s y :
  0 ≤ i → 0 ≤ j → cell g i j = Some y → set_slot g i j s = Ok (put g i j s).
Proof.
  intros Hi Hj Hy. unfold set_slot, put.
  by rewrite (setitem2_mget _ _ _ s _ Hi Hj Hy).
Qed.

Lemma wf_cell g i j : wf g → inb (size g) i j → is_Some (cell g i j).
Proof. apply rect_mget. Qed.

Lemma wf_put g i j s : wf g → wf (put g i j s).
Proof. apply rect_mset. Qed.

Lemma cell_put_eq g i j s : is_Some (cell g i j) → cell (put g i j s) i j = Some s.
Proof. apply mget_mset_eq. Qed.

Lemma cell_put_ne n g i j i' j' s :
  inb n i j → inb n i' j' → (i, j) ≠ (i', j') →
  cell (put g i j s) i' j' = cell g i' j'.
Proof. intros [??] [??]. apply mget_mset_ne; lia. Qed.

Lemma put_id g i j s : cell g i j = Some s → put g i j s = g.
Proof.
  intros Hs. unfold put, with_grid. rewrite (mset_id _ _ _ _ Hs).
  by destruct g.
Qed.

Lemma put_put g i j s s' : put (put g i j s) i j s' = put g i j s'.
Proof. unfold put, with_grid. simpl. by rewrite mset_mset. Qed.

Lemma put_comm n g i j i' j' s s' :
  inb n i j → inb n i' j' → (i, j) ≠ (i', j') →
  put (put g i j s) i' j' s' = put (put g i' j' s') i j s.
Proof.
  intros [??] [??] ?. unfold put, with_grid. simpl. f_equal.
  apply mset_comm; lia || done.
Qed.

(** Writing a slot replaces its contribution to the list of tiles. *)
Lemma tiles_put g i j y :
  cell g i j = Some y →
  ∃ t1 t2, tiles g = t1 ++ to_list y ++ t2 ∧
           ∀ s, tiles (put g i j s) = t1 ++ to_list s ++ t2.
Proof.
  intros (l1 & l2 & Hc & Hput)%concat_mset.
  exists (omap id l1), (omap id l2). unfold tiles. split.
  - rewrite Hc, omap_app. by destruct y.
  - intros s. simpl. rewrite Hput, omap_app. by destruct s.
Qed.

Lemma tiles_put_empty g i j b :
  cell g i j = Some None →
  tiles (put g i j (Some b)) ≡ₚ b :: tiles g.
Proof.
  intros (t1 & t2 & -> & ->)%tiles_put. simpl.
  by rewrite Permutation_middle.
Qed.

Lemma tiles_put_clear g i j b :
  cell g i j = Some (Some b) →
  b :: tiles (put g i j None) ≡ₚ tiles g.
Proof.
  intros (t1 & t2 & -> & ->)%tiles_put. simpl.
  by rewrite Permutation_middle.
Qed.

Lemma tiles_put_update g i j b b' :
  cell g i j = Some (Some b) →
  ∃ rest, tiles g ≡ₚ b :: rest ∧ tiles (put g i j (Some b')) ≡ₚ b' :: rest.
Proof.
  intros (t1 & t2 & -> & ->)%tiles_put. exists (t1 ++ t2). simpl.
  by rewrite <- !Permutation_middle.
Qed.

#[global] Instance zsum_perm : Proper ((≡ₚ) ==> (=)) zsum.
Proof. induction 1; simpl; lia. Qed.

Lemma total_put_empty g i j b :
  cell g i j = Some None → total (put g i j (Some b)) = value b + total g.
Proof. intros Hnone. unfold total. by rewrite tiles_put_empty. Qed.

(** ** [spawn_new_tile] *)

Lemma wf_readable g : wf g → readable g.
Proof.
  intros Hwf i j Hij. destruct (wf_cell g i j Hwf Hij) as [s Hs].
  exists s. apply slot_cell; [apply Hij..|done].
Qed.

Lemma empty_in_row_spec g i js :
  (∀ j, j ∈ js → ∃ s, slot g i j = Ok s) →
  ∃ ep, empty_in_row g i js = Ok ep ∧
        ∀ x y, (x, y) ∈ ep ↔ x = i ∧ y ∈ js ∧ slot g x y = Ok None.
Proof.
  induction js as [|j js IH]; intros Hread.
  - exists []. split; [done|]. set_solver.
  - destruct (Hread j) as [s Hs]; [set_solver|].
    destruct IH as (ep & Hep & Hin); [set_solver|].
    simpl. rewrite Hs, Hep. simpl. eexists. split; [done|].
    intros x y. destruct s as [b|].
    + rewrite Hin, elem_of_cons. split; [naive_solver|].
      intros (-> & [->|Hy] & Hnone); [congruence|done].
    + rewrite elem_of_cons, Hin, elem_of_cons. naive_solver.
Qed.

Lemma empty_in_rows_spec g rows :
  (∀ i j, i ∈ rows → j ∈ range (size g) → ∃ s, slot g i j = Ok s) →
  ∃ ep, empty_in_rows g rows = Ok ep ∧
        ∀ x y, (x, y) ∈ ep ↔
               x ∈ rows ∧ y ∈ range (size g) ∧ slot g x y = Ok None.
Proof.
  induction rows as [|i rows IH]; intros Hread.
  - exists []. split; [done|]. set_solver.
  - destruct (empty_in_row_spec g i (range (size g))) as (here & Hhere & Hin1).
    { intros j Hj. apply Hread; [set_solver|done]. }
    destruct IH as (rest & Hrest & Hin2).
    { intros i' j Hi' Hj. apply Hread; [set_solver|done]. }
    simpl. rewrite Hhere, Hrest. simpl. eexists. split; [done|].
    intros x y. rewrite elem_of_app, Hin1, Hin2, elem_of_cons. naive_solver.
Qed.

Lemma empty_positions_spec g :
  readable g →
  ∃ ep, empty_positions g = Ok ep ∧
        ∀ x y, (x, y) ∈ ep ↔ inb (size g) x y ∧ slot g x y = Ok None.
Proof.
  intros Hread.
  destruct (empty_in_rows_spec g (range (size g))) as (ep & Hep & Hin).
  { intros i j Hi%elem_of_range Hj%elem_of_range. by apply Hread. }
  exists ep. split; [done|]. intros x y.
  rewrite Hin, !elem_of_range. unfold inb. tauto.
Qed.

Lemma choice_ok {A} (l : list A) r :
  l ≠ [] → ∃ x, x ∈ l ∧ choice l r = Ok (x, advance r).
Proof.
  intros Hl. unfold choice.
  destruct (lookup_lt_is_Some_2 l (tape r (cursor r) mod length l)%nat)
    as [x Hx].
  { apply Nat.mod_upper_bound. by destruct l. }
  exists x. rewrite Hx. split; [|done]. by eapply list_elem_of_lookup_2.
Qed.

Lemma create_block_ok x y r :
  ∃ v, (v = 2 ∨ v = 4) ∧
       create_block x y r = Ok (Block_init x y v, advance r).
Proof.
  destruct (choice_ok [2; 4] r) as (v & Hv & Hc); [done|].
  exists v. unfold create_block. rewrite Hc. split; [set_solver|done].
Qed.

Lemma spawn_new_tile_full g r :
  (∀ i j, inb (size g) i j → ∃ b, slot g i j = Ok (Some b)) →
  spawn_new_tile g r = Ok (g, r).
Proof.
  intros Hfull. destruct (empty_positions_spec g) as (ep & Hep & Hin).
  { intros i j Hij. destruct (Hfull i j Hij) as [b Hb]. eauto. }
  unfold spawn_new_tile. rewrite Hep. simpl.
  destruct ep as [|[x y] ep]; [done|].
  destruct (Hin x y) as [[Hxy Hnone] _]; [set_solver|].
  destruct (Hfull x y Hxy) as [b Hb]. congruence.
Qed.

Lemma spawn_new_tile_spec g r :
  wf g → ∃ g' r', spawn_new_tile g r = Ok (g', r') ∧ spawned g r g' r'.
Proof.
  intros Hwf.
  destruct (empty_positions_spec g (wf_readable g Hwf)) as (ep & Hep & Hin).
  unfold spawn_new_tile. rewrite Hep. simpl.
  destruct (decide (ep = [])) as [->|Hne].
  - exists g, r. split; [done|]. left. split; [|done].
    intros x y Hxy Hnone. apply (not_elem_of_nil (x, y)), Hin.
    split; [done|]. apply slot_cell; [apply Hxy..|done].
  - destruct (choice_ok ep r Hne) as ([x y] & Hxy & Hc).
    apply Hin in Hxy as [Hb Hnone].
    destruct (create_block_ok x y (advance r)) as (v & Hv & Hcb).
    apply slot_Ok in Hnone; [|apply Hb..].
    destruct ep as [|xy0 ep0]; [done|].
    rewrite Hc. simpl. rewrite Hcb. simpl.
    rewrite (set_slot_cell g x y _ None) by (apply Hb || done). simpl.
    eexists _, _. split; [done|]. right. by exists x, y, v.
Qed.

(** ** The two mutations of [shift_and_merge] *)

Lemma get_new_position_room d n i j ni nj :
  get_new_position i j d = (ni, nj) → inb n i j → inb n ni nj →
  (ni, nj) = (i, j) ∨
  ((ni, nj) ≠ (i, j) ∧ room d n i j = S (room d n ni nj)).
Proof.
  unfold get_new_position, room, inb. intros Hd Hij Hn.
  repeat (destruct (String.eqb d _));
    injection Hd as <- <-; (by left) || (right; split; [intros [=]|]; lia).
Qed.

Lemma room_le d n i j : inb n i j → (room d n i j ≤ Z.to_nat n)%nat.
Proof.
  unfold room, inb. intros Hij. repeat (destruct (String.eqb d _)); lia.
Qed.

Lemma get_new_position_known d i j :
  known d → get_new_position i j d ≠ (i, j).
Proof.
  intros [-> | [-> | [-> | ->]]]; simpl; intros [=]; lia.
Qed.

Lemma get_new_position_unknown d i j :
  ¬ known d → get_new_position i j d = (i, j).
Proof.
  intros Hd. unfold get_new_position, known in *.
  destruct (String.eqb_spec d "up"); [tauto|].
  destruct (String.eqb_spec d "down"); [tauto|].
  destruct (String.eqb_spec d "left"); [tauto|].
  destruct (String.eqb_spec d "right"); [tauto|done].
Qed.

(** Sliding permutes the tiles. *)
Lemma slide_tiles g i j ni nj t :
  inb (size g) i j → inb (size g) ni nj →
  cell g i j = Some (Some t) → cell g ni nj = Some None →
  tiles (put (put g ni nj (Some t)) i j None) ≡ₚ tiles g.
Proof.
  intros Hij Hn Ht Hnone.
  assert ((ni, nj) ≠ (i, j)) as Hne by (intros [= ? ?]; subst; congruence).
  apply (Permutation_cons_inv (a := t)).
  rewrite tiles_put_clear.
  - by apply tiles_put_empty.
  - by rewrite (cell_put_ne (size g)).
Qed.

(** Merging removes two tiles and adds the doubled one. *)
Lemma merge_tiles g i j ni nj t u :
  (ni, nj) ≠ (i, j) →
  inb (size g) i j → inb (size g) ni nj →
  cell g i j = Some (Some t) → cell g ni nj = Some (Some u) →
  ∃ rest, tiles g ≡ₚ t :: u :: rest ∧
    tiles (put (put g ni nj (Some (update_value u))) i j None)
      ≡ₚ update_value u :: rest.
Proof.
  intros Hne Hij Hn Ht Hu.
  rewrite (put_comm (size g)) by done.
  assert (cell (put g i j None) ni nj = Some (Some u)) as Hu1.
  { by rewrite (cell_put_ne (size g)). }
  destruct (tiles_put_update _ ni nj u (update_value u) Hu1)
    as (rest & Hg1 & Hg2).
  exists rest. split; [|done].
  by rewrite <- (tiles_put_clear g i j t Ht), Hg1.
Qed.

(** ** The loops of [shift_and_merge] end without an exception *)

Lemma slide_eq fuel d g i j ni nj :
  slide fuel d g i j ni nj =
  c ← (if in_grid g ni nj
       then s ← slot g ni nj; Ok (bool_decide (s = None))
       else Ok false);
  if c : bool then
    match fuel with
    | O => OutOfFuel
    | S fuel' =>
        t ← slot g i j;
        g ← set_slot g ni nj t;
        g ← set_slot g i j None;
        let '(ni', nj') := get_new_position ni nj d in
        slide fuel' d g ni nj ni' nj'
    end
  else Ok (g, (i, j), (ni, nj)).
Proof. by destruct fuel. Qed.

Lemma slide_spec d fuel : ∀ g i j ni nj t,
  wf g → inb (size g) i j → get_new_position i j d = (ni, nj) →
  cell g i j = Some (Some t) → (room d (size g) i j ≤ fuel)%nat →
  ∃ g' i' j' ni' nj',
    slide fuel d g i j ni nj = Ok (g', (i', j'), (ni', nj')) ∧
    get_new_position i' j' d = (ni', nj') ∧
    wf g' ∧ size g' = size g ∧ inb (size g) i' j' ∧
    cell g' i' j' = Some (Some t) ∧ rtc (step d) g g'.
Proof.
  induction fuel as [|fuel IH]; intros g i j ni nj t Hwf Hij Hd Ht Hroom;
    rewrite slide_eq.
  all: destruct (in_grid g ni nj) eqn:Hin;
    [|simpl; by exists g, i, j, ni, nj].
  all: apply in_grid_inb in Hin.
  all: destruct (wf_cell g ni nj Hwf Hin) as [s Hs].
  all: rewrite (slot_cell g ni nj s) by (apply Hin || done); simpl.
  all: destruct s as [u|];
    [rewrite bool_decide_eq_false_2 by done; simpl;
     by exists g, i, j, ni, nj|].
  all: rewrite bool_decide_eq_true_2 by done; simpl.
  all: destruct (get_new_position_room d (size g) i j ni nj Hd Hij Hin)
    as [Heq | [Hne Hr]]; [injection Heq as -> ->; congruence|].
  - lia.
  - rewrite (slot_cell g i j (Some t)) by (apply Hij || done). simpl.
    rewrite (set_slot_cell g ni nj _ None) by (apply Hin || done). simpl.
    rewrite (set_slot_cell _ i j None (Some t));
      [|apply Hij..|by rewrite (cell_put_ne (size g))]. simpl.
    destruct (get_new_position ni nj d) as [ni' nj'] eqn:Hd'.
    destruct (IH (put (put g ni nj (Some t)) i j None) ni nj ni' nj' t)
      as (g' & i' & j' & ni'' & nj'' & Hsl & Hd'' & Hwf' & Hsz & Hij' & Ht'
          & Hsteps); [by do 2 apply wf_put|done|done| |simpl; lia|].
    { rewrite (cell_put_ne (size g)) by done.
      apply cell_put_eq. by rewrite Hs. }
    exists g', i', j', ni'', nj''. split_and!; try done.
    eapply rtc_l; [|done]. by eapply step_slide.
Qed.

Lemma shift_cell_spec d fuel g merged i j :
  wf g → rect (size g) merged → inb (size g) i j →
  (Z.to_nat (size g) ≤ fuel)%nat →
  ∃ g' merged' i',
    shift_cell fuel d g merged i j = Ok (g', merged', i') ∧
    wf g' ∧ size g' = size g ∧ rect (size g) merged' ∧
    0 ≤ i' < size g ∧ rtc (step d) g g'.
Proof.
  intros Hwf Hm Hij Hfuel. unfold shift_cell.
  destruct (wf_cell g i j Hwf Hij) as [s Hs].
  rewrite (slot_cell g i j s) by (apply Hij || done). simpl.
  destruct s as [t|]; [|exists g, merged, i; by destruct Hij].
  destruct (get_new_position i j d) as [ni nj] eqn:Hd.
  destruct (slide_spec d fuel g i j ni nj t)
    as (g1 & i1 & j1 & ni1 & nj1 & Hsl & Hd1 & Hwf1 & Hsz1 & Hij1 & Ht1
        & Hsteps); [done..| |].
  { pose proof (room_le d _ _ _ Hij). lia. }
  rewrite Hsl. simpl.
  assert (0 ≤ i1 < size g) as Hi1 by apply Hij1.
  destruct (in_grid g1 ni1 nj1) eqn:Hin; [|by exists g1, merged, i1].
  apply in_grid_inb in Hin. rewrite Hsz1 in Hin.
  destruct (wf_cell g1 ni1 nj1) as [s1 Hs1]; [done|by rewrite Hsz1|].
  rewrite (slot_cell g1 ni1 nj1 s1) by (apply Hin || done). simpl.
  destruct s1 as [u|]; [|by exists g1, merged, i1].
  rewrite (slot_value_cell g1 ni1 nj1 u) by (apply Hin || done).
  rewrite (slot_value_cell g1 i1 j1 t) by (apply Hij1 || done). simpl.
  destruct (value u =? value t) eqn:Hv; [|by exists g1, merged, i1].
  apply Z.eqb_eq in Hv.
  destruct (rect_mget _ merged ni1 nj1 Hm Hin) as [mb Hmb].
  rewrite (getitem2_mget merged ni1 nj1 mb) by (apply Hin || done). simpl.
  destruct mb; [by exists g1, merged, i1|].
  rewrite (set_slot_cell g1 ni1 nj1 _ (Some u)) by (apply Hin || done).
  simpl.
  destruct (wf_cell (put g1 ni1 nj1 (Some (update_value u))) i1 j1)
    as [y Hy]; [by apply wf_put|by simpl; rewrite Hsz1|].
  rewrite (set_slot_cell _ i1 j1 None y) by (apply Hij1 || done). simpl.
  rewrite (setitem2_mget merged ni1 nj1 true false) by (apply Hin || done).
  simpl. eexists _, _, _. split_and!; try done; try lia.
  - by do 2 apply wf_put.
  - by apply rect_mset.
  - eapply rtc_r; [done|]. eapply step_merge; by rewrite ?Hsz1.
Qed.

Lemma shift_row_spec d fuel js : ∀ g merged i,
  wf g → rect (size g) merged → 0 ≤ i < size g →
  (∀ j, j ∈ js → 0 ≤ j < size g) →
  (Z.to_nat (size g) ≤ fuel)%nat →
  ∃ g' merged' i',
    shift_row fuel d js g merged i = Ok (g', merged', i') ∧
    wf g' ∧ size g' = size g ∧ rect (size g) merged' ∧
    rtc (step d) g g'.
Proof.
  induction js as [|j js IH]; intros g merged i Hwf Hm Hi Hjs Hfuel.
  - by exists g, merged, i.
  - destruct (shift_cell_spec d fuel g merged i j)
      as (g1 & m1 & i1 & Hc & Hwf1 & Hsz1 & Hm1 & Hi1 & Hsteps1);
      [done|done|split; [done|apply Hjs; set_solver]|done|].
    destruct (IH g1 m1 i1)
      as (g2 & m2 & i2 & Hr & Hwf2 & Hsz2 & Hm2 & Hsteps2);
      [done|by rewrite Hsz1..| |by rewrite Hsz1|].
    { intros j' Hj'. rewrite Hsz1. apply Hjs. set_solver. }
    simpl. rewrite Hc. simpl. rewrite Hr.
    exists g2, m2, i2. split_and!; try done; try congruence.
    by etrans.
Qed.

Lemma shift_rows_spec d fuel js rows : ∀ g merged,
  wf g → rect (size g) merged →
  (∀ i, i ∈ rows → 0 ≤ i < size g) →
  (∀ j, j ∈ js → 0 ≤ j < size g) →
  (Z.to_nat (size g) ≤ fuel)%nat →
  ∃ g' merged',
    shift_rows fuel d rows js g merged = Ok (g', merged') ∧
    wf g' ∧ size g' = size g ∧ rtc (step d) g g'.
Proof.
  induction rows as [|i rows IH]; intros g merged Hwf Hm Hrows Hjs Hfuel.
  - by exists g, merged.
  - destruct (shift_row_spec d fuel js g merged i)
      as (g1 & m1 & i1 & Hr & Hwf1 & Hsz1 & Hm1 & Hsteps1);
      [done|done|apply Hrows; set_solver|done|done|].
    destruct (IH g1 m1) as (g2 & m2 & Hrs & Hwf2 & Hsz2 & Hsteps2);
      [done|by rewrite Hsz1| | |by rewrite Hsz1|].
    { intros i' Hi'. rewrite Hsz1. apply Hrows. set_solver. }
    { intros j' Hj'. rewrite Hsz1. by apply Hjs. }
    simpl. rewrite Hr. simpl. rewrite Hrs.
    exists g2, m2. split_and!; try done; try congruence.
    by etrans.
Qed.

Lemma elem_of_range_order g d x : x ∈ range_order g d ↔ 0 ≤ x < size g.
Proof.
  unfold range_order. destruct (existsb _ _).
  - apply elem_of_range.
  - apply elem_of_range_down.
Qed.

Lemma rect_merged_init n :
  rect n ((λ _, replicate (Z.to_nat n) false) <$> range n).
Proof.
  split.
  - unfold range. by rewrite !length_fmap, length_seq.
  - intros row (? & -> & _)%list_elem_of_fmap. apply length_replicate.
Qed.

(** The loops end, raise nothing, keep the board square, and amount to
    a sequence of slides and merges. *)
Lemma shift_tiles_spec d fuel g :
  wf g → (Z.to_nat (size g) ≤ fuel)%nat →
  ∃ g', shift_tiles fuel g d = Ok g' ∧
        wf g' ∧ size g' = size g ∧ rtc (step d) g g'.
Proof.
  intros Hwf Hfuel. unfold shift_tiles.
  destruct (shift_rows_spec d fuel (range_order g d) (range_order g d) g
              ((λ _, replicate (Z.to_nat (size g)) false) <$> range (size g)))
    as (g' & m' & Hrs & Hwf' & Hsz & Hsteps);
    [done|apply rect_merged_init|by intros ? ?%elem_of_range_order..|done|].
  rewrite Hrs. simpl. by exists g'.
Qed.

(** The body of the inner loop assigns the outer loop variable: after
    the tile of slot (0, 0) has slid down to row 3, the rest of the pass
    over row 0 reads row 3, and the tile of slot (0, 1) is left where it
    was. *)
Example down_reads_moved_row :
  shift_tiles 4 (row0 (tile 2 (0, 0)) (tile 4 (0, 1)) None None) "down"
  = Ok {| size := 4;
          grid := [[None; tile 4 (0, 1); None; None]; empty_row; empty_row;
                   [tile 2 (0, 0); None; None; None]] |}.
Proof. by vm_compute. Qed.

(** ** What slides and merges preserve *)

Lemma step_total d g g' : known d → step d g g' → total g' = total g.
Proof.
  intros Hd [g0 i j ni nj t Hn Hij Hnn Ht Hnone
            |g0 i j ni nj t u Hn Hij Hnn Ht Hu Hv]; unfold total.
  - by rewrite slide_tiles.
  - destruct (merge_tiles g0 i j ni nj t u) as (rest & Hg & Hg');
      [|done..|].
    { rewrite <- Hn. by apply get_new_position_known. }
    rewrite Hg, Hg'. simpl. lia.
Qed.

Lemma rtc_step_total d g g' :
  known d → rtc (step d) g g' → total g' = total g.
Proof.
  intros Hd. induction 1 as [|g g1 g2 H1 _ IH]; [done|].
  rewrite IH. by eapply step_total.
Qed.

(** No mutation writes a [position] field. *)
Lemma step_positions d g g' b :
  step d g g' → b ∈ tiles g' →
  ∃ b0, b0 ∈ tiles g ∧ position b = position b0.
Proof.
  intros [g0 i j ni nj t Hn Hij Hnn Ht Hnone
         |g0 i j ni nj t u Hn Hij Hnn Ht Hu Hv] Hb.
  - rewrite slide_tiles in Hb by done. by exists b.
  - destruct (decide ((ni, nj) = (i, j))) as [Heq|Hne].
    + injection Heq as -> ->. rewrite put_put in Hb.
      exists b. split; [|done].
      rewrite <- (tiles_put_clear g0 i j t Ht). set_solver.
    + destruct (merge_tiles g0 i j ni nj t u) as (rest & Hg & Hg');
        [done..|].
      rewrite Hg' in Hb. apply elem_of_cons in Hb as [->|Hb].
      * exists u. split; [|done]. rewrite Hg. set_solver.
      * exists b. split; [|done]. rewrite Hg. set_solver.
Qed.

Lemma rtc_step_positions d g g' :
  rtc (step d) g g' → ∀ b, b ∈ tiles g' →
  ∃ b0, b0 ∈ tiles g ∧ position b = position b0.
Proof.
  induction 1 as [g|g g1 g2 H1 _ IH]; intros b Hb; [by exists b|].
  destruct (IH b Hb) as (b1 & Hb1 & Hp1).
  destruct (step_positions _ _ _ _ H1 Hb1) as (b0 & Hb0 & Hp0).
  exists b0. split; [done|congruence].
Qed.

(** ** [is_valid_move] *)

Lemma for_any_ok body l :
  (∀ x, x ∈ l → ∃ b, body x = Ok b) → ∃ b, for_any body l = Ok b.
Proof.
  induction l as [|x l IH]; intros Hbody; [by exists false|].
  destruct (Hbody x) as [b Hb]; [set_solver|].
  simpl. rewrite Hb. simpl. destruct b; [by exists true|].
  apply IH. intros y Hy. apply Hbody. set_solver.
Qed.

Lemma for_any_true body l x :
  (∀ y, y ∈ l → ∃ b, body y = Ok b) → x ∈ l → body x = Ok true →
  for_any body l = Ok true.
Proof.
  induction l as [|y l IH]; intros Hbody Hx Htrue; [set_solver|].
  destruct (Hbody y) as [b Hb]; [set_solver|].
  simpl. rewrite Hb. simpl. destruct b; [done|].
  apply elem_of_cons in Hx as [->|Hx]; [congruence|].
  apply IH; [|done..]. intros z Hz. apply Hbody. set_solver.
Qed.

Lemma movable_ok g d i j :
  wf g → inb (size g) i j → ∃ b, movable g d i j = Ok b.
Proof.
  intros Hwf Hij. unfold movable.
  destruct (wf_cell g i j Hwf Hij) as [s Hs].
  rewrite (slot_cell g i j s) by (apply Hij || done). simpl.
  destruct s as [t|]; [|by exists false].
  destruct (get_new_position i j d) as [ni nj].
  destruct (in_grid g ni nj) eqn:Hin; [|by exists false].
  apply in_grid_inb in Hin.
  destruct (wf_cell g ni nj Hwf Hin) as [s' Hs'].
  rewrite (slot_cell g ni nj s') by (apply Hin || done). simpl.
  destruct s' as [u|]; [|by exists true].
  rewrite (slot_value_cell g ni nj u) by (apply Hin || done).
  rewrite (slot_value_cell g i j t) by (apply Hij || done). simpl.
  by eexists.
Qed.

Lemma is_valid_move_ok g d : wf g → ∃ b, is_valid_move g d = Ok b.
Proof.
  intros Hwf. apply for_any_ok. intros i Hi%elem_of_range.
  apply for_any_ok. intros j Hj%elem_of_range. by apply movable_ok.
Qed.

Lemma is_valid_move_unknown g d i j t :
  wf g → ¬ known d → inb (size g) i j → cell g i j = Some (Some t) →
  is_valid_move g d = Ok true.
Proof.
  intros Hwf Hd Hij Ht. unfold is_valid_move.
  apply for_any_true with i; [|by apply elem_of_range, Hij|].
  { intros i' Hi'%elem_of_range. apply for_any_ok.
    intros j' Hj'%elem_of_range. by apply movable_ok. }
  apply for_any_true with j; [|by apply elem_of_range, Hij|].
  { intros j' Hj'%elem_of_range. apply movable_ok; [done|].
    split; [apply Hij|done]. }
  unfold movable.
  rewrite (slot_cell g i j (Some t)) by (apply Hij || done). simpl.
  rewrite (get_new_position_unknown d i j Hd).
  rewrite (proj2 (in_grid_inb g i j) Hij).
  rewrite (slot_cell g i j (Some t)) by (apply Hij || done). simpl.
  rewrite (slot_value_cell g i j t) by (apply Hij || done). simpl.
  by rewrite Z.eqb_refl.
Qed.

(** ** A direction that is none of the four *)

Lemma shift_cell_unknown d fuel g merged i j :
  wf g → rect (size g) merged → inb (size g) i j → ¬ known d →
  mget merged i j = Some false →
  ∃ merged',
    shift_cell fuel d g merged i j = Ok (put g i j None, merged', i) ∧
    rect (size g) merged' ∧
    ∀ x y, inb (size g) x y → (x, y) ≠ (i, j) →
           mget merged' x y = mget merged x y.
Proof.
  intros Hwf Hm Hij Hd Hfalse. unfold shift_cell.
  destruct (wf_cell g i j Hwf Hij) as [s Hs].
  rewrite (slot_cell g i j s) by (apply Hij || done). simpl.
  destruct s as [t|]; [|exists merged; by rewrite (put_id g i j None)].
  rewrite (get_new_position_unknown d i j Hd), slide_eq.
  rewrite (proj2 (in_grid_inb g i j) Hij).
  rewrite (slot_cell g i j (Some t)) by (apply Hij || done). simpl.
  rewrite (proj2 (in_grid_inb g i j) Hij).
  rewrite (slot_cell g i j (Some t)) by (apply Hij || done). simpl.
  rewrite (slot_value_cell g i j t) by (apply Hij || done). simpl.
  rewrite Z.eqb_refl.
  rewrite (getitem2_mget merged i j false) by (apply Hij || done). simpl.
  rewrite (set_slot_cell g i j _ (Some t)) by (apply Hij || done). simpl.
  rewrite (set_slot_cell _ i j None (Some (update_value t)));
    [|apply Hij..|apply cell_put_eq; by rewrite Hs].
  simpl.
  rewrite (setitem2_mget merged i j true false) by (apply Hij || done).
  simpl. rewrite put_put. exists (mset merged i j true).
  split_and!; [done|by apply rect_mset|].
  intros x y [??] Hne. destruct Hij as [??]. apply mget_mset_ne; lia || done.
Qed.

Lemma shift_row_unknown d fuel i js : ∀ g merged,
  wf g → rect (size g) merged → ¬ known d → 0 ≤ i < size g →
  (∀ j, j ∈ js → 0 ≤ j < size g) → NoDup js →
  (∀ j, j ∈ js → mget merged i j = Some false) →
  ∃ g' merged',
    shift_row fuel d js g merged i = Ok (g', merged', i) ∧
    wf g' ∧ size g' = size g ∧ rect (size g) merged' ∧
    (∀ j, j ∈ js → cell g' i j = Some None) ∧
    (∀ x y, inb (size g) x y → cell g x y = Some None →
            cell g' x y = Some None) ∧
    (∀ x y, inb (size g) x y → x ≠ i → mget merged' x y = mget merged x y).
Proof.
  induction js as [|j js IH];
    intros g merged Hwf Hm Hd Hi Hjs Hnd Hfalse.
  - exists g, merged. split_and!; try done. set_solver.
  - apply NoDup_cons in Hnd as [Hj Hnd].
    assert (inb (size g) i j) as Hij by (split; [done|apply Hjs; set_solver]).
    destruct (shift_cell_unknown d fuel g merged i j)
      as (m1 & Hc & Hm1 & Hsame); [done..|apply Hfalse; set_solver|].
    destruct (IH (put g i j None) m1)
      as (g2 & m2 & Hr & Hwf2 & Hsz2 & Hm2 & Hrow & Hkeep & Hother);
      [by apply wf_put|done..| | | |].
    { intros j' Hj'. apply Hjs. set_solver. }
    { done. }
    { intros j' Hj'. rewrite Hsame.
      - apply Hfalse. set_solver.
      - split; [done|]. apply Hjs. set_solver.
      - intros [= ->]. done. }
    simpl. rewrite Hc. simpl. rewrite Hr.
    exists g2, m2. split_and!; try done.
    + intros j' [->|Hj']%elem_of_cons; [|by apply Hrow].
      apply Hkeep; [done|]. apply cell_put_eq. by apply wf_cell.
    + intros x y Hxy Hnone. apply Hkeep; [done|].
      destruct (decide ((i, j) = (x, y))) as [[= <- <-]|Hne].
      * apply cell_put_eq. by apply wf_cell.
      * by rewrite (cell_put_ne (size g)).
    + intros x y Hxy Hx. rewrite Hother by done. apply Hsame; [done|].
      intros [= ? ?]. done.
Qed.

Lemma shift_rows_unknown d fuel js rows : ∀ g merged,
  wf g → rect (size g) merged → ¬ known d →
  (∀ i, i ∈ rows → 0 ≤ i < size g) → NoDup rows →
  (∀ j, j ∈ js → 0 ≤ j < size g) → NoDup js →
  (∀ i j, i ∈ rows → j ∈ js → mget merged i j = Some false) →
  ∃ g' merged',
    shift_rows fuel d rows js g merged = Ok (g', merged') ∧
    wf g' ∧ size g' = size g ∧
    (∀ i j, i ∈ rows → j ∈ js → cell g' i j = Some None) ∧
    (∀ x y, inb (size g) x y → cell g x y = Some None →
            cell g' x y = Some None).
Proof.
  induction rows as [|i rows IH];
    intros g merged Hwf Hm Hd Hrows Hndr Hjs Hnd Hfalse.
  - exists g, merged. split_and!; try done. set_solver.
  - apply NoDup_cons in Hndr as [Hi Hndr].
    destruct (shift_row_unknown d fuel i js g merged)
      as (g1 & m1 & Hr & Hwf1 & Hsz1 & Hm1 & Hrow & Hkeep1 & Hother);
      [done|done|done|apply Hrows; set_solver|done|done| |].
    { intros j Hj. apply Hfalse; [set_solver|done]. }
    destruct (IH g1 m1) as (g2 & m2 & Hrs & Hwf2 & Hsz2 & Hrest & Hkeep2);
      [done|by rewrite Hsz1|done| |done| |done| |].
    { intros i' Hi'. rewrite Hsz1. apply Hrows. set_solver. }
    { intros j Hj. rewrite Hsz1. by apply Hjs. }
    { intros i' j Hi' Hj. rewrite Hother.
      - apply Hfalse; [set_solver|done].
      - split; [apply Hrows; set_solver|by apply Hjs].
      - intros ->. done. }
    simpl. rewrite Hr. simpl. rewrite Hrs.
    exists g2, m2. split_and!; try done; try congruence.
    + intros i' j [->|Hi']%elem_of_cons Hj; [|by apply Hrest].
      apply Hkeep2; [|by apply Hrow]. rewrite Hsz1.
      split; [apply Hrows; set_solver|by apply Hjs].
    + intros x y Hxy Hnone. apply Hkeep2; [by rewrite Hsz1|].
      by apply Hkeep1.
Qed.

Lemma NoDup_range n : NoDup (range n).
Proof.
  unfold range. apply NoDup_fmap_2; [apply _|apply NoDup_seq].
Qed.

Lemma NoDup_range_order g d : NoDup (range_order g d).
Proof.
  unfold range_order. destruct (existsb _ _).
  - apply NoDup_range.
  - apply NoDup_range_down.
Qed.

Lemma merged_init_false n i j :
  inb n i j →
  mget ((λ _, replicate (Z.to_nat n) false) <$> range n) i j = Some false.
Proof.
  intros Hij.
  destruct (rect_mget n _ i j (rect_merged_init n) Hij) as [b Hb].
  rewrite Hb. f_equal.
  apply mget_concat, list_elem_of_In, in_concat in Hb as (row & Hrow & Hin).
  apply list_elem_of_In, list_elem_of_fmap in Hrow as (? & -> & _).
  by apply list_elem_of_In, elem_of_replicate in Hin as [-> _].
Qed.

Lemma mget_inb {A} n (m : list (list A)) i j x :
  rect n m → 0 ≤ i → 0 ≤ j → mget m i j = Some x → inb n i j.
Proof.
  intros [Hlen Hrows] Hi Hj. unfold mget.
  destruct (m !! Z.to_nat i) as [row|] eqn:Hrow; [|done]. simpl.
  intros Hx%lookup_lt_Some.
  rewrite (Hrows row) in Hx by (by eapply list_elem_of_lookup_2).
  apply lookup_lt_Some in Hrow. unfold inb. lia.
Qed.

Lemma all_empty_tiles g :
  wf g → (∀ x y, inb (size g) x y → cell g x y = Some None) → tiles g = [].
Proof.
  intros Hwf Hnone. destruct (tiles g) as [|b bs] eqn:Heq; [done|].
  assert (b ∈ tiles g) as Hb by (rewrite Heq; set_solver).
  apply list_elem_of_omap in Hb as (s & Hs & Hid).
  unfold id in Hid. subst s.
  apply concat_mget in Hs as (i & j & Hi & Hj & Hs).
  change (cell g i j = Some (Some b)) in Hs.
  rewrite (Hnone i j) in Hs; [done|]. by eapply mget_inb.
Qed.

Lemma shift_tiles_unknown d fuel g :
  wf g → ¬ known d →
  ∃ g', shift_tiles fuel g d = Ok g' ∧ wf g' ∧ size g' = size g ∧
        tiles g' = [].
Proof.
  intros Hwf Hd. unfold shift_tiles.
  destruct (shift_rows_unknown d fuel (range_order g d) (range_order g d) g
              ((λ _, replicate (Z.to_nat (size g)) false) <$> range (size g)))
    as (g' & m' & Hrs & Hwf' & Hsz & Hnone & _);
    [done|apply rect_merged_init|done
    |by intros ? ?%elem_of_range_order|apply NoDup_range_order
    |by intros ? ?%elem_of_range_order|apply NoDup_range_order| |].
  { intros i j Hi%elem_of_range_order Hj%elem_of_range_order.
    by apply merged_init_false. }
  rewrite Hrs. simpl. exists g'. split_and!; try done.
  apply all_empty_tiles; [done|]. rewrite Hsz. intros x y [??].
  apply Hnone; by apply elem_of_range_order.
Qed.

(** ** [Grid.__init__] *)

Lemma wf_blank n : wf (blank n).
Proof.
  split; simpl.
  - unfold range. by rewrite !length_fmap, length_seq.
  - intros row (? & -> & _)%list_elem_of_fmap.
    unfold range. by rewrite !length_fmap, length_seq.
Qed.

Lemma cell_blank n i j : inb n i j → cell (blank n) i j = Some None.
Proof.
  intros Hij. destruct (wf_cell (blank n) i j (wf_blank n) Hij) as [s Hs].
  rewrite Hs. f_equal.
  apply mget_concat, list_elem_of_In, in_concat in Hs as (row & Hrow & Hin).
  apply list_elem_of_In, list_elem_of_fmap in Hrow as (? & -> & _).
  by apply list_elem_of_In, list_elem_of_fmap in Hin as (? & -> & _).
Qed.

Lemma length_concat_grid g :
  length (concat (grid g)) = (length (tiles g) + empties g)%nat.
Proof.
  unfold tiles, empties. induction (concat (grid g)) as [|[b|] l IH].
  - done.
  - rewrite filter_cons_False by done.
    change (omap id (Some b :: l)) with (b :: omap id l). simpl. lia.
  - rewrite filter_cons_True by done.
    change (omap id (None :: l)) with (omap (M := list) (@id (option Block)) l).
    simpl. lia.
Qed.

Lemma wf_slots g :
  wf g → Z.of_nat (length (tiles g)) + Z.of_nat (empties g) = size g * size g
         ∨ size g < 0.
Proof.
  intros Hwf. pose proof (rect_length_concat _ _ Hwf) as Hlen.
  rewrite length_concat_grid in Hlen.
  destruct (decide (size g < 0)); [by right|left].
  apply (f_equal Z.of_nat) in Hlen.
  by rewrite Nat2Z.inj_add, Nat2Z.inj_mul, Z2Nat.id in Hlen by lia.
Qed.

Lemma spawned_on_room g r g' r' x y :
  spawned g r g' r' → inb (size g) x y → cell g x y = Some None →
  ∃ x' y' v, inb (size g) x' y' ∧ cell g x' y' = Some None ∧
             (v = 2 ∨ v = 4) ∧
             g' = put g x' y' (Some (Block_init x' y' v)) ∧
             r' = advance (advance r).
Proof. intros [[Hfull _]|Hone] Hxy Hnone; [by destruct (Hfull x y)|done]. Qed.

Lemma spawned_consistent g r g' r' :
  wf g → spawned g r g' r' → consistent g → consistent g'.
Proof.
  intros Hwf [(_ & -> & _)|(x & y & v & Hxy & Hnone & _ & -> & _)] Hc;
    [done|].
  intros i j b Hi Hj.
  destruct (decide ((x, y) = (i, j))) as [[= <- <-]|Hne].
  - rewrite cell_put_eq by (by rewrite Hnone). by intros [= <-].
  - unfold cell, put. simpl. destruct Hxy as [??].
    rewrite mget_mset_ne by (lia || done). by apply Hc.
Qed.

Lemma Grid_init_spec n r :
  2 ≤ n →
  ∃ g1 g2,
    spawn_new_tile (blank n) r = Ok (g1, advance (advance r)) ∧
    one_tile_spawned (blank n) g1 ∧
    spawn_new_tile g1 (advance (advance r))
      = Ok (g2, advance (advance (advance (advance r)))) ∧
    one_tile_spawned g1 g2 ∧
    Grid_init n r = Ok (g2, advance (advance (advance (advance r)))).
Proof.
  intros Hn. unfold Grid_init. fold (blank n).
  destruct (spawn_new_tile_spec (blank n) r (wf_blank n))
    as (g1 & r1 & Hs1 & Hsp1).
  destruct (spawned_on_room _ _ _ _ 0 0 Hsp1)
    as (x1 & y1 & v1 & Hxy1 & Hnone1 & Hv1 & Hg1 & ->);
    [unfold inb; simpl; lia|apply cell_blank; unfold inb; lia|].
  rewrite Hs1. simpl.
  assert (wf g1) as Hwf1 by (subst g1; apply wf_put, wf_blank).
  destruct (spawn_new_tile_spec g1 (advance (advance r)) Hwf1)
    as (g2 & r2 & Hs2 & Hsp2).
  assert (∃ x y, inb n x y ∧ (x1, y1) ≠ (x, y)) as (x & y & Hxy & Hne).
  { destruct (decide ((x1, y1) = (0, 0))) as [Heq|Hne].
    - exists 0, 1. split; [unfold inb; lia|]. rewrite Heq. by intros [=].
    - exists 0, 0. split; [unfold inb; lia|done]. }
  destruct (spawned_on_room _ _ _ _ x y Hsp2)
    as (x2 & y2 & v2 & Hxy2 & Hnone2 & Hv2 & Hg2 & ->).
  { by subst g1. }
  { subst g1. rewrite (cell_put_ne n) by done. by apply cell_blank. }
  exists g1, g2. split_and!; try done.
  - by exists x1, y1, v1.
  - by exists x2, y2, v2.
Qed.

Lemma one_tile_spawned_tiles g g' :
  one_tile_spawned g g' →
  size g' = size g ∧ (wf g → wf g') ∧
  ∃ b, (value b = 2 ∨ value b = 4) ∧ tiles g' ≡ₚ b :: tiles g.
Proof.
  intros (x & y & v & Hxy & Hnone & Hv & ->). split_and!; [done| |].
  - apply wf_put.
  - exists (Block_init x y v). split; [done|]. by apply tiles_put_empty.
Qed.

(** ** The 4 by 4 boards of the specification *)

Lemma wf_row0 a b c d : wf (row0 a b c d).
Proof.
  split; [done|]. intros row Hrow. simpl in Hrow.
  repeat (apply elem_of_cons in Hrow as [->|Hrow]; [done|]).
  by apply elem_of_nil in Hrow.
Qed.

(** A move on a board of the form [row0] that is valid and whose loops
    leave the board [g1] ends by spawning one tile on [g1]. *)
Lemma move_row0 fuel g g1 d r :
  shift_tiles fuel g d = Ok g1 → is_valid_move g d = Ok true →
  wf g1 → inb (size g1) 3 3 → cell g1 3 3 = Some None →
  ∃ g2 r2, one_tile_spawned g1 g2 ∧
           shift_and_merge fuel g d r = Ok (true, g2, r2).
Proof.
  intros Hst Hv Hwf Hin Hnone.
  destruct (spawn_new_tile_spec g1 r Hwf) as (g2 & r2 & Hsp & Hspd).
  destruct (spawned_on_room _ _ _ _ 3 3 Hspd Hin Hnone)
    as (x & y & v & Hxy & Hc & Hv' & -> & ->).
  eexists _, _. split; [by exists x, y, v|].
  unfold shift_and_merge. rewrite Hv. simpl. rewrite Hst. simpl.
  by rewrite Hsp.
Qed.

(** C10: on every 4 by 4 board whose first row is [2,0,2,0] and whose
    other slots are empty, [shift_and_merge("right")] returns [True];
    its loops leave the first row [0,0,0,4] and the other rows empty, and
    the board returned is that board with the one spawned tile added. *)
Theorem right_2020_gives_0004 (p0 p2 : Z * Z) (fuel : nat) (r : Random) :
  (4 ≤ fuel)%nat →
  ∃ g1 g2 r2,
    shift_tiles fuel (row0 (tile 2 p0) None (tile 2 p2) None) "right" = Ok g1 ∧
    cells g1 = [[None; None; None; Some 4]; no_values; no_values; no_values] ∧
    one_tile_spawned g1 g2 ∧
    shift_and_merge fuel (row0 (tile 2 p0) None (tile 2 p2) None) "right" r
      = Ok (true, g2, r2).
Proof.
  intros Hfuel.
  assert (shift_tiles fuel (row0 (tile 2 p0) None (tile 2 p2) None) "right"
          = Ok (row0 None None None (tile 4 p2))) as Hst.
  { destruct fuel as [|[|[|[|k]]]]; try lia. by vm_compute. }
  destruct (move_row0 fuel _ _ "right" r Hst) as (g2 & r2 & Hsp & Hm);
    [by vm_compute|apply wf_row0|done|done|].
  by exists (row0 None None None (tile 4 p2)), g2, r2.
Qed.

Lemma right_2020_gives_0004_witness :
  ∃ g1 g2 r2,
    shift_tiles 4 (row0 (tile 2 (0, 0)) None (tile 2 (0, 2)) None) "right"
      = Ok g1 ∧
    cells g1 = [[None; None; None; Some 4]; no_values; no_values; no_values] ∧
    one_tile_spawned g1 g2 ∧
    shift_and_merge 4 (row0 (tile 2 (0, 0)) None (tile 2 (0, 2)) None)
      "right" (const_tape 0) = Ok (true, g2, r2).
Proof. apply (right_2020_gives_0004 (0, 0) (0, 2) 4 (const_tape 0)). lia. Defined.

(** C1, as the code behaves: on every 4 by 4 board whose first row is
    [2,2,2,2] and whose other slots are empty, [shift_and_merge("left")]
    returns [True], but its loops leave the first row [4,0,4,0]: the two
    merged tiles are not moved to the left edge. *)
Theorem left_2222_gives_4040 (p0 p1 p2 p3 : Z * Z) (fuel : nat) (r : Random) :
  ∃ g1 g2 r2,
    shift_tiles fuel (row0 (tile 2 p0) (tile 2 p1) (tile 2 p2) (tile 2 p3))
      "left" = Ok g1 ∧
    cells g1 = [[Some 4; None; Some 4; None]; no_values; no_values; no_values] ∧
    one_tile_spawned g1 g2 ∧
    shift_and_merge fuel
      (row0 (tile 2 p0) (tile 2 p1) (tile 2 p2) (tile 2 p3)) "left" r
      = Ok (true, g2, r2).
Proof.
  assert (shift_tiles fuel
            (row0 (tile 2 p0) (tile 2 p1) (tile 2 p2) (tile 2 p3)) "left"
          = Ok (row0 (tile 4 p0) None (tile 4 p2) None)) as Hst.
  { destruct fuel; by vm_compute. }
  destruct (move_row0 fuel _ _ "left" r Hst) as (g2 & r2 & Hsp & Hm);
    [by vm_compute|apply wf_row0|done|done|].
  by exists (row0 (tile 4 p0) None (tile 4 p2) None), g2, r2.
Qed.

(** C2, as the code behaves: on every 4 by 4 board whose first row is
    [2,2,2,0] and whose other slots are empty, the loops of
    [shift_and_merge("left")] leave the first row [2,4,0,0]: the pair
    nearest the right edge merges, and the tile at the left edge is the
    one left alone. *)
Theorem left_2220_gives_2400 (p0 p1 p2 : Z * Z) (fuel : nat) (r : Random) :
  ∃ g1 g2 r2,
    shift_tiles fuel (row0 (tile 2 p0) (tile 2 p1) (tile 2 p2) None)
      "left" = Ok g1 ∧
    cells g1 = [[Some 2; Some 4; None; None]; no_values; no_values; no_values] ∧
    one_tile_spawned g1 g2 ∧
    shift_and_merge fuel
      (row0 (tile 2 p0) (tile 2 p1) (tile 2 p2) None) "left" r
      = Ok (true, g2, r2).
Proof.
  assert (shift_tiles fuel
            (row0 (tile 2 p0) (tile 2 p1) (tile 2 p2) None) "left"
          = Ok (row0 (tile 2 p0) (tile 4 p1) None None)) as Hst.
  { destruct fuel; by vm_compute. }
  destruct (move_row0 fuel _ _ "left" r Hst) as (g2 & r2 & Hsp & Hm);
    [by vm_compute|apply wf_row0|done|done|].
  by exists (row0 (tile 2 p0) (tile 4 p1) None None), g2, r2.
Qed.

(** C3: when [is_valid_move(direction)] is false, [shift_and_merge]
    returns [False], leaves every slot as it was and spawns nothing (the
    random source is untouched); this holds for every direction string,
    the four moves among them.  In particular, with the first row
    [2,4,8,16] on an otherwise empty 4 by 4 board, neither "left" nor
    "right" is a valid move, and both calls return [False] and leave the
    board unchanged. *)
Theorem locked_move_changes_nothing :
  (∀ fuel g d r,
     is_valid_move g d = Ok false →
     shift_and_merge fuel g d r = Ok (false, g, r)) ∧
  (∀ p0 p1 p2 p3 fuel r d,
     d = "left" ∨ d = "right" →
     is_valid_move (row0 (tile 2 p0) (tile 4 p1) (tile 8 p2) (tile 16 p3)) d
       = Ok false ∧
     shift_and_merge fuel
       (row0 (tile 2 p0) (tile 4 p1) (tile 8 p2) (tile 16 p3)) d r
       = Ok (false, row0 (tile 2 p0) (tile 4 p1) (tile 8 p2) (tile 16 p3), r)).
Proof.
  assert (∀ fuel g d r,
     is_valid_move g d = Ok false →
     shift_and_merge fuel g d r = Ok (false, g, r)) as Hgate.
  { intros fuel g d r Hv. unfold shift_and_merge. by rewrite Hv. }
  split; [done|].
  intros p0 p1 p2 p3 fuel r d Hd.
  assert (is_valid_move
            (row0 (tile 2 p0) (tile 4 p1) (tile 8 p2) (tile 16 p3)) d
          = Ok false) as Hv by (by destruct Hd as [->| ->]; vm_compute).
  split; [done|]. by apply Hgate.
Qed.

Lemma locked_move_changes_nothing_witness :
  is_valid_move
    (row0 (tile 2 (0, 0)) (tile 4 (0, 1)) (tile 8 (0, 2)) (tile 16 (0, 3)))
    "left" = Ok false ∧
  shift_and_merge 4
    (row0 (tile 2 (0, 0)) (tile 4 (0, 1)) (tile 8 (0, 2)) (tile 16 (0, 3)))
    "left" (const_tape 0)
  = Ok (false,
        row0 (tile 2 (0, 0)) (tile 4 (0, 1)) (tile 8 (0, 2)) (tile 16 (0, 3)),
        const_tape 0).
Proof.
  split; [vm_compute; reflexivity|].
  apply (proj1 locked_move_changes_nothing). vm_compute. reflexivity.
Defined.

(** C8: on a board whose every slot holds a tile, [spawn_new_tile]
    returns normally, returns the board as it was, and leaves the random
    source where it was: no draw is consumed. *)
Theorem spawn_on_full_board (g : Grid) (r : Random) :
  (∀ i j, inb (size g) i j → ∃ b, slot g i j = Ok (Some b)) →
  spawn_new_tile g r = Ok (g, r).
Proof. apply spawn_new_tile_full. Qed.

Lemma spawn_on_full_board_witness :
  spawn_new_tile full_2x2 (const_tape 5) = Ok (full_2x2, const_tape 5).
Proof.
  apply (spawn_on_full_board full_2x2 (const_tape 5)).
  intros i j [Hi Hj]. simpl in Hi, Hj.
  assert (i = 0 ∨ i = 1) as [-> | ->] by lia;
    assert (j = 0 ∨ j = 1) as [-> | ->] by lia;
    eexists; reflexivity.
Defined.

Lemma default_moves_unknown d : ¬ known d → default_moves !! d = None.
Proof.
  intros Hd. unfold default_moves, known in *.
  rewrite !lookup_insert_ne by (intros <-; tauto). apply lookup_empty.
Qed.

Lemma default_moves_known :
  default_moves !! "up" = Some MoveUp ∧
  default_moves !! "down" = Some MoveDown ∧
  default_moves !! "left" = Some MoveLeft ∧
  default_moves !! "right" = Some MoveRight.
Proof. by vm_compute. Qed.

Lemma play_move_unknown fuel g d r :
  ¬ known d →
  play_move fuel (controller g) d r
    = Ok (controller g, r, [PrintStr "Invalid move"]).
Proof.
  intros Hd. unfold play_move, controller. cbn [moves game_grid].
  by rewrite default_moves_unknown.
Qed.

Lemma play_move_locked fuel g d r :
  known d → is_valid_move g d = Ok false →
  play_move fuel (controller g) d r
    = Ok (controller g, r, [PrintStr "Move not possible!"]).
Proof.
  destruct default_moves_known as (Hu & Hdn & Hl & Hr).
  intros Hd Hv. unfold play_move, controller. cbn [moves game_grid].
  destruct Hd as [-> | [-> | [-> | ->]]];
    rewrite ?Hu, ?Hdn, ?Hl, ?Hr; unfold move, shift_and_merge;
    by rewrite Hv.
Qed.

(** C9: for every string that is none of "up", "down", "left", "right",
    [play_move] prints "Invalid move" and returns with the grid and the
    random source as they were; a known direction on a locked grid
    prints "Move not possible!" instead, and the two reports differ. *)
Theorem play_move_rejects_unknown (fuel : nat) (g : Grid) (d : string)
    (r : Random) :
  ¬ known d →
  play_move fuel (controller g) d r
    = Ok (controller g, r, [PrintStr "Invalid move"]) ∧
  (∀ d', known d' → is_valid_move g d' = Ok false →
         play_move fuel (controller g) d' r
           = Ok (controller g, r, [PrintStr "Move not possible!"])) ∧
  [PrintStr "Invalid move"] ≠ [PrintStr "Move not possible!"].
Proof.
  intros Hd. split_and!; [| |done].
  - by apply play_move_unknown.
  - intros d' Hd' Hv. by apply play_move_locked.
Qed.

Lemma unknown_diagonal : ¬ known "diagonal".
Proof. intros [H | [H | [H | H]]]; discriminate H. Defined.

Lemma play_move_rejects_unknown_witness :
  play_move 4 (controller (row0 (tile 2 (0, 0)) None None None)) "diagonal"
    (const_tape 0)
  = Ok (controller (row0 (tile 2 (0, 0)) None None None), const_tape 0,
        [PrintStr "Invalid move"]).
Proof.
  apply (play_move_rejects_unknown 4 (row0 (tile 2 (0, 0)) None None None)
           "diagonal" (const_tape 0)).
  apply unknown_diagonal.
Defined.

(** C7: for every size [n >= 2], [Grid(n)] is built by two calls of
    [spawn_new_tile], each of which fills a slot that was empty; the new
    grid has exactly two tiles, each of value 2 or 4, and [n * n - 2]
    empty slots. *)
Theorem new_grid_has_two_tiles (n : Z) (r : Random) :
  2 ≤ n →
  ∃ g1 r1 g r',
    spawn_new_tile (blank n) r = Ok (g1, r1) ∧ one_tile_spawned (blank n) g1 ∧
    spawn_new_tile g1 r1 = Ok (g, r') ∧ one_tile_spawned g1 g ∧
    Grid_init n r = Ok (g, r') ∧
    size g = n ∧ wf g ∧
    length (tiles g) = 2%nat ∧
    (∀ b, b ∈ tiles g → value b = 2 ∨ value b = 4) ∧
    Z.of_nat (empties g) = n * n - 2.
Proof.
  intros Hn.
  destruct (Grid_init_spec n r Hn) as (g1 & g & Hs1 & Hsp1 & Hs2 & Hsp2 & Hinit).
  destruct (one_tile_spawned_tiles _ _ Hsp1) as (Hsz1 & Hwf1 & b1 & Hv1 & Ht1).
  destruct (one_tile_spawned_tiles _ _ Hsp2) as (Hsz2 & Hwf2 & b2 & Hv2 & Ht2).
  rewrite (all_empty_tiles (blank n) (wf_blank n)) in Ht1
    by (intros x y Hxy; by apply cell_blank).
  rewrite Ht1 in Ht2.
  assert (wf g) as Hwf by apply Hwf2, Hwf1, wf_blank.
  assert (size g = n) as Hsz by (by rewrite Hsz2, Hsz1).
  assert (length (tiles g) = 2%nat) as Hlen by (by rewrite Ht2).
  eexists g1, _, g, _. split_and!; try done.
  - intros b. rewrite Ht2, !elem_of_cons, elem_of_nil.
    by intros [-> | [-> | []]].
  - destruct (wf_slots g Hwf) as [Hslots|Hneg]; lia.
Qed.

Lemma new_grid_has_two_tiles_witness :
  ∃ g1 r1 g r',
    spawn_new_tile (blank 4) (const_tape 0) = Ok (g1, r1) ∧
    one_tile_spawned (blank 4) g1 ∧
    spawn_new_tile g1 r1 = Ok (g, r') ∧ one_tile_spawned g1 g ∧
    Grid_init 4 (const_tape 0) = Ok (g, r') ∧
    size g = 4 ∧ wf g ∧
    length (tiles g) = 2%nat ∧
    (∀ b, b ∈ tiles g → value b = 2 ∨ value b = 4) ∧
    Z.of_nat (empties g) = 4 * 4 - 2.
Proof. apply (new_grid_has_two_tiles 4 (const_tape 0)). lia. Defined.

(** C6: for every direction string that is none of the four and every
    board with an occupied slot, [get_new_position] returns the slot
    itself, [is_valid_move] answers [True], and [shift_and_merge] returns
    [True] with a board whose former tiles are all gone: its loops leave
    no tile at all, and the board returned holds only the one tile
    spawned afterwards.  [play_move] never gets there: it rejects the
    string before any move is made. *)
Theorem unknown_direction_clears_board (fuel : nat) (g : Grid) (d : string)
    (r : Random) (i j : Z) (t : Block) :
  wf g → ¬ known d → inb (size g) i j → cell g i j = Some (Some t) →
  ∃ g1 g2 r2,
    get_new_position i j d = (i, j) ∧
    is_valid_move g d = Ok true ∧
    shift_tiles fuel g d = Ok g1 ∧ tiles g1 = [] ∧
    one_tile_spawned g1 g2 ∧
    shift_and_merge fuel g d r = Ok (true, g2, r2) ∧
    play_move fuel (controller g) d r
      = Ok (controller g, r, [PrintStr "Invalid move"]).
Proof.
  intros Hwf Hd Hij Ht.
  destruct (shift_tiles_unknown d fuel g Hwf Hd) as (g1 & Hst & Hwf1 & Hsz1 & Hnil).
  destruct (spawn_new_tile_spec g1 r Hwf1) as (g2 & r2 & Hsp & Hspd).
  assert (cell g1 i j = Some None) as Hnone.
  { destruct (wf_cell g1 i j Hwf1) as [[b|] Hb]; [by rewrite Hsz1| |done].
    assert (b ∈ tiles g1) as Hin; [|by rewrite Hnil in Hin; set_solver].
    apply list_elem_of_omap. exists (Some b). split; [|done].
    by eapply mget_concat. }
  destruct (spawned_on_room _ _ _ _ i j Hspd)
    as (x & y & v & Hxy & Hc & Hv & -> & ->); [by rewrite Hsz1|done|].
  pose proof (is_valid_move_unknown g d i j t Hwf Hd Hij Ht) as Hvalid.
  eexists g1, _, _. split_and!; try done.
  - by apply get_new_position_unknown.
  - by exists x, y, v.
  - unfold shift_and_merge. rewrite Hvalid. simpl. rewrite Hst. simpl.
    by rewrite Hsp.
  - by apply play_move_unknown.
Qed.

Lemma known_right : known "right".
Proof. unfold known. tauto. Defined.

Lemma unknown_direction_clears_board_witness :
  ∃ g1 g2 r2,
    get_new_position 0 0 "diagonal" = (0, 0) ∧
    is_valid_move (row0 (tile 2 (0, 0)) None None None) "diagonal" = Ok true ∧
    shift_tiles 4 (row0 (tile 2 (0, 0)) None None None) "diagonal" = Ok g1 ∧
    tiles g1 = [] ∧
    one_tile_spawned g1 g2 ∧
    shift_and_merge 4 (row0 (tile 2 (0, 0)) None None None) "diagonal"
      (const_tape 0) = Ok (true, g2, r2) ∧
    play_move 4 (controller (row0 (tile 2 (0, 0)) None None None)) "diagonal"
      (const_tape 0)
    = Ok (controller (row0 (tile 2 (0, 0)) None None None), const_tape 0,
          [PrintStr "Invalid move"]).
Proof.
  apply (unknown_direction_clears_board 4 (row0 (tile 2 (0, 0)) None None None)
           "diagonal" (const_tape 0) 0 0 {| value := 2; position := (0, 0) |}).
  - apply wf_row0.
  - apply unknown_diagonal.
  - unfold inb. simpl. lia.
  - reflexivity.
Defined.

(** C4, refuted as worded: on the first row [2,0,2,0], moved right, the
    two tiles of value 2 merge into one tile of value 4.  The board total
    is 4 before and 4 after the loops, so the merge changed it by 0 and
    not by -2; with the spawned tile the total is 6, which is not the
    total before plus the merged pair. *)
Lemma merge_accounting_counterexample :
  ∃ g1 g2 r2,
    shift_tiles 4 (row0 (tile 2 (0, 0)) None (tile 2 (0, 2)) None) "right"
      = Ok g1 ∧
    value <$> tiles (row0 (tile 2 (0, 0)) None (tile 2 (0, 2)) None) = [2; 2] ∧
    value <$> tiles g1 = [4] ∧
    total g1 = total (row0 (tile 2 (0, 0)) None (tile 2 (0, 2)) None) ∧
    total g1 ≠ total (row0 (tile 2 (0, 0)) None (tile 2 (0, 2)) None) - 2 ∧
    shift_and_merge 4 (row0 (tile 2 (0, 0)) None (tile 2 (0, 2)) None) "right"
      (const_tape 0) = Ok (true, g2, r2) ∧
    total g2 = 6 ∧
    total g2 ≠ total (row0 (tile 2 (0, 0)) None (tile 2 (0, 2)) None) + (2 + 2).
Proof. eexists _, _, _. by vm_compute. Qed.

(** C4, amended: a merge takes two tiles of value [V] off the board and
    puts one tile of value [2 * V] back, so it leaves the board total as
    it was.  For each of the four directions, on a well-formed board,
    [shift_and_merge] returns; when it returns [True], the total after
    its loops is the total before the move, and the total of the board
    returned is that total plus the value, 2 or 4, of the spawned tile
    (or that total itself when the board was full and nothing was
    spawned). *)
Theorem move_keeps_total :
  (∀ g d i j ni nj t u,
     known d → get_new_position i j d = (ni, nj) →
     inb (size g) i j → inb (size g) ni nj →
     cell g i j = Some (Some t) → cell g ni nj = Some (Some u) →
     value u = value t →
     total (put (put g ni nj (Some (update_value u))) i j None) = total g) ∧
  (∀ fuel g d r,
     wf g → known d → (Z.to_nat (size g) ≤ fuel)%nat →
     ∃ moved g2 r2,
       shift_and_merge fuel g d r = Ok (moved, g2, r2) ∧
       (moved = false → g2 = g ∧ r2 = r) ∧
       (moved = true →
        ∃ g1, shift_tiles fuel g d = Ok g1 ∧ total g1 = total g ∧
              spawn_new_tile g1 r = Ok (g2, r2) ∧
              ((g2 = g1 ∧ r2 = r ∧ total g2 = total g) ∨
               (∃ v, (v = 2 ∨ v = 4) ∧ one_tile_spawned g1 g2 ∧
                     total g2 = total g + v)))).
Proof.
  split.
  - intros g d i j ni nj t u Hd Hn Hij Hnn Ht Hu Hv.
    apply (step_total d); [done|]. by eapply step_merge.
  - intros fuel g d r Hwf Hd Hfuel.
    destruct (is_valid_move_ok g d Hwf) as [valid Hvalid].
    unfold shift_and_merge. rewrite Hvalid. simpl.
    destruct valid; simpl; [|by exists false, g, r].
    destruct (shift_tiles_spec d fuel g Hwf Hfuel)
      as (g1 & Hst & Hwf1 & Hsz1 & Hsteps).
    pose proof (rtc_step_total d g g1 Hd Hsteps) as Htot.
    destruct (spawn_new_tile_spec g1 r Hwf1) as (g2 & r2 & Hsp & Hspd).
    rewrite Hst. simpl. rewrite Hsp. simpl.
    exists true, g2, r2. split_and!; [done..|].
    intros _. exists g1. split_and!; try done.
    destruct Hspd as [(_ & -> & ->)|(x & y & v & Hxy & Hnone & Hv & -> & _)].
    + left. by rewrite Htot.
    + right. exists v. split_and!; [done|by exists x, y, v|].
      rewrite total_put_empty by done. simpl. lia.
Qed.

Lemma move_keeps_total_witness :
  ∃ moved g2 r2,
    shift_and_merge 4 (row0 (tile 2 (0, 0)) None (tile 2 (0, 2)) None) "right"
      (const_tape 0) = Ok (moved, g2, r2) ∧
    (moved = false →
     g2 = row0 (tile 2 (0, 0)) None (tile 2 (0, 2)) None ∧ r2 = const_tape 0) ∧
    (moved = true →
     ∃ g1,
       shift_tiles 4 (row0 (tile 2 (0, 0)) None (tile 2 (0, 2)) None) "right"
         = Ok g1 ∧
       total g1 = total (row0 (tile 2 (0, 0)) None (tile 2 (0, 2)) None) ∧
       spawn_new_tile g1 (const_tape 0) = Ok (g2, r2) ∧
       ((g2 = g1 ∧ r2 = const_tape 0 ∧
         total g2 = total (row0 (tile 2 (0, 0)) None (tile 2 (0, 2)) None)) ∨
        (∃ v, (v = 2 ∨ v = 4) ∧ one_tile_spawned g1 g2 ∧
              total g2
              = total (row0 (tile 2 (0, 0)) None (tile 2 (0, 2)) None) + v))).
Proof.
  apply (proj2 move_keeps_total 4%nat
           (row0 (tile 2 (0, 0)) None (tile 2 (0, 2)) None) "right"
           (const_tape 0)).
  - apply wf_row0.
  - apply known_right.
  - simpl. lia.
Defined.

Lemma consistent_blank n : consistent (blank n).
Proof.
  intros i j b Hi Hj Hb.
  pose proof (mget_inb n _ i j _ (wf_blank n) Hi Hj Hb) as Hij.
  by rewrite (cell_blank n i j Hij) in Hb.
Qed.

(** C5, refuted as worded: a board with one tile in slot (0, 0) that
    stores the position (0, 0) has every position equal to its slot; after
    [shift_and_merge("right")] the tile sits in slot (0, 3) and still
    stores (0, 0). *)
Lemma position_slot_counterexample :
  ∃ g2 r2 b,
    consistent (row0 (tile 2 (0, 0)) None None None) ∧
    shift_and_merge 4 (row0 (tile 2 (0, 0)) None None None) "right"
      (const_tape 0) = Ok (true, g2, r2) ∧
    cell g2 0 3 = Some (Some b) ∧ position b = (0, 0) ∧
    ¬ consistent g2.
Proof.
  eexists _, _, _. split_and!.
  - intros i j b Hi Hj. unfold cell, mget. simpl.
    destruct (Z.to_nat i) as [|[|[|[|?]]]] eqn:Ei;
      destruct (Z.to_nat j) as [|[|[|[|?]]]] eqn:Ej;
      simpl; intros [= <-]. simpl. f_equal; lia.
  - by vm_compute.
  - by vm_compute.
  - done.
  - intros Hc. by specialize (Hc 0 3 _ ltac:(lia) ltac:(lia) eq_refl).
Qed.

(** C5, amended: [Grid(n)] returns a board on which every tile stores
    the coordinates of its slot, and [spawn_new_tile] keeps a board so.
    [shift_and_merge] does not: its loops never write a [position], so
    every tile on the board after them stores the position that a tile
    of the board stored before the move, wherever it has slid to. *)
Theorem positions_written_at_spawn_only :
  (∀ n r, ∃ g r', Grid_init n r = Ok (g, r') ∧ wf g ∧ consistent g) ∧
  (∀ g r, wf g → consistent g →
          ∃ g' r', spawn_new_tile g r = Ok (g', r') ∧ wf g' ∧ consistent g') ∧
  (∀ fuel g d,
     wf g → (Z.to_nat (size g) ≤ fuel)%nat →
     ∃ g1, shift_tiles fuel g d = Ok g1 ∧
           ∀ b, b ∈ tiles g1 →
                ∃ b0, b0 ∈ tiles g ∧ position b = position b0).
Proof.
  assert (∀ g r, wf g → consistent g →
          ∃ g' r', spawn_new_tile g r = Ok (g', r') ∧ wf g' ∧ consistent g')
    as Hspawn.
  { intros g r Hwf Hc.
    destruct (spawn_new_tile_spec g r Hwf) as (g' & r' & Hsp & Hspd).
    exists g', r'. split_and!; [done| |by eapply spawned_consistent].
    destruct Hspd as [(_ & -> & _)|(x & y & v & _ & _ & _ & -> & _)];
      [done|by apply wf_put]. }
  split_and!; [|done|].
  - intros n r. unfold Grid_init. fold (blank n).
    destruct (Hspawn (blank n) r (wf_blank n) (consistent_blank n))
      as (g1 & r1 & Hs1 & Hwf1 & Hc1).
    destruct (Hspawn g1 r1 Hwf1 Hc1) as (g2 & r2 & Hs2 & Hwf2 & Hc2).
    exists g2, r2. rewrite Hs1. simpl. by rewrite Hs2.
  - intros fuel g d Hwf Hfuel.
    destruct (shift_tiles_spec d fuel g Hwf Hfuel)
      as (g1 & Hst & _ & _ & Hsteps).
    exists g1. split; [done|]. by apply (rtc_step_positions d).
Qed.

Lemma positions_written_at_spawn_only_witness :
  (∃ g' r',
     spawn_new_tile (row0 (tile 2 (0, 0)) None None None) (const_tape 0)
       = Ok (g', r') ∧ wf g' ∧ consistent g') ∧
  (∃ g1,
     shift_tiles 4 (row0 (tile 2 (0, 0)) None None None) "right" = Ok g1 ∧
     ∀ b, b ∈ tiles g1 →
          ∃ b0, b0 ∈ tiles (row0 (tile 2 (0, 0)) None None None) ∧
                position b = position b0).
Proof.
  split.
  - apply (proj1 (proj2 positions_written_at_spawn_only)).
    + apply wf_row0.
    + intros i j b Hi Hj. unfold cell, mget. simpl.
      destruct (Z.to_nat i) as [|[|[|[|?]]]] eqn:Ei;
        destruct (Z.to_nat j) as [|[|[|[|?]]]] eqn:Ej;
        simpl; intros [= <-]. simpl. f_equal; lia.
  - apply (proj2 (proj2 positions_written_at_spawn_only) 4%nat
             (row0 (tile 2 (0, 0)) None None None) "right").
    + apply wf_row0.
    + simpl. lia.
Defined.

(** * Further properties of the engine *)

(** ** Sums over the slots of a board *)

Lemma elem_of_coords n i j : (i, j) ∈ coords n ↔ inb n i j.
Proof.
  unfold coords, inb. rewrite list_elem_of_bind. split.
  - intros (x & Hin & Hx%elem_of_range).
    apply list_elem_of_fmap in Hin as (y & [= -> ->] & Hy%elem_of_range).
    done.
  - intros [Hi Hj]. exists i. split; [|by apply elem_of_range].
    apply list_elem_of_fmap. exists j. split; [done|by apply elem_of_range].
Qed.

Lemma NoDup_coords n : NoDup (coords n).
Proof.
  unfold coords. apply NoDup_bind; [| |apply NoDup_range].
  - intros x1 x2 [i j] _ _ (? & [= -> ->] & _)%list_elem_of_fmap
      (? & [= -> ->] & _)%list_elem_of_fmap. done.
  - intros i _. apply NoDup_fmap_2; [|apply NoDup_range].
    by intros ?? [=].
Qed.

Lemma zsum_ext {A} (F F' : A → Z) (l : list A) :
  (∀ c, c ∈ l → F' c = F c) → zsum (F' <$> l) = zsum (F <$> l).
Proof.
  induction l as [|c l IH]; intros Heq; [done|].
  rewrite !fmap_cons. simpl. rewrite Heq, IH; [done| |]; set_solver.
Qed.

Lemma zsum_change {A} (F F' : A → Z) (l : list A) (c0 : A) :
  NoDup l → c0 ∈ l → (∀ c, c ∈ l → c ≠ c0 → F' c = F c) →
  zsum (F' <$> l) = zsum (F <$> l) - F c0 + F' c0.
Proof.
  induction l as [|c l IH]; intros Hnd Hin Heq; [set_solver|].
  apply NoDup_cons in Hnd as [Hc Hnd]. rewrite !fmap_cons. simpl.
  apply elem_of_cons in Hin as [->|Hin].
  - rewrite (zsum_ext F F' l); [lia|].
    intros c' Hc'. apply Heq; [set_solver|]. by intros ->.
  - rewrite IH, Heq; [lia|set_solver|by intros ->|done|done|].
    intros c' Hc' Hne. apply Heq; [set_solver|done].
Qed.

Lemma board_sum_put F g x y old s :
  inb (size g) x y → cell g x y = Some old →
  board_sum F (put g x y s) = board_sum F g - F x y old + F x y s.
Proof.
  intros Hxy Hold. unfold board_sum.
  change (size (put g x y s)) with (size g).
  rewrite (zsum_change
             (λ c : Z * Z, F c.1 c.2 (default None (cell g c.1 c.2)))
             _ _ (x, y));
    [|apply NoDup_coords|by apply elem_of_coords|].
  - simpl. rewrite Hold, cell_put_eq by (by rewrite Hold). done.
  - intros [i j] Hij%elem_of_coords Hne. simpl.
    rewrite (cell_put_ne (size g)); [done..|]. by intros [= -> ->].
Qed.

Lemma cell_put_occupied g ni nj i j b t :
  inb (size g) i j → inb (size g) ni nj →
  cell g i j = Some (Some t) →
  ∃ x, cell (put g ni nj (Some b)) i j = Some (Some x).
Proof.
  intros Hij Hnn Ht.
  destruct (decide ((ni, nj) = (i, j))) as [[= -> ->]|Hne].
  - exists b. apply cell_put_eq. by rewrite Ht.
  - exists t. by rewrite (cell_put_ne (size g)).
Qed.

Lemma potential_put d g x y old s :
  inb (size g) x y → cell g x y = Some old →
  potential d (put g x y s)
  = potential d g
    - match old with
      | Some _ => 1 + Z.of_nat (room d (size g) x y)
      | None => 0
      end
    + match s with
      | Some _ => 1 + Z.of_nat (room d (size g) x y)
      | None => 0
      end.
Proof.
  intros Hxy Hold.
  exact (board_sum_put
           (λ i j s, match s with
                     | Some _ => 1 + Z.of_nat (room d (size g) i j)
                     | None => 0
                     end) g x y old s Hxy Hold).
Qed.

(** Every slide and every merge lowers the potential. *)
Lemma step_potential d g g' : step d g g' → potential d g' < potential d g.
Proof.
  intros [g0 i j ni nj t Hn Hij Hnn Ht Hnone
         |g0 i j ni nj t u Hn Hij Hnn Ht Hu Hv].
  - destruct (get_new_position_room d (size g0) i j ni nj Hn Hij Hnn)
      as [[= -> ->]|[Hne Hroom]]; [congruence|].
    rewrite (potential_put d _ i j (Some t));
      [|done|by rewrite (cell_put_ne (size g0))].
    rewrite (potential_put d g0 ni nj None) by done.
    simpl. lia.
  - destruct (cell_put_occupied g0 ni nj i j (update_value u) t)
      as [x Hx]; [done..|].
    rewrite (potential_put d _ i j (Some x)) by done.
    rewrite (potential_put d g0 ni nj (Some u)) by done.
    simpl. lia.
Qed.

Lemma rtc_step_potential d g g' :
  rtc (step d) g g' → potential d g' ≤ potential d g.
Proof.
  induction 1 as [|g g1 g2 H1 _ IH]; [done|].
  apply step_potential in H1. lia.
Qed.

Lemma tc_step_changes d g g' : tc (step d) g g' → g' ≠ g.
Proof.
  intros Htc Heq.
  assert (potential d g' < potential d g); [|subst; lia].
  induction Htc as [g g1 H1|g g1 g2 H1 Htc IH].
  - by apply step_potential.
  - apply step_potential in H1. apply tc_rtc, rtc_step_potential in Htc.
    lia.
Qed.

(** After a slide or a merge the board has an empty slot. *)
Lemma step_leaves_room d g g' :
  step d g g' → ∃ i j, inb (size g') i j ∧ cell g' i j = Some None.
Proof.
  intros [g0 i j ni nj t Hn Hij Hnn Ht Hnone
         |g0 i j ni nj t u Hn Hij Hnn Ht Hu Hv];
    exists i, j; (split; [done|]); apply cell_put_eq.
  - destruct (cell_put_occupied g0 ni nj i j t t) as [x ->]; done.
  - destruct (cell_put_occupied g0 ni nj i j (update_value u) t)
      as [x ->]; done.
Qed.

Lemma step_wf d g g' : step d g g' → wf g → wf g'.
Proof. destruct 1; intros Hwf; by do 2 apply wf_put. Qed.

Lemma step_size d g g' : step d g g' → size g' = size g.
Proof. by destruct 1. Qed.

Lemma tc_step_leaves_room d g g' :
  tc (step d) g g' → ∃ i j, inb (size g') i j ∧ cell g' i j = Some None.
Proof.
  induction 1 as [g g1 H1|g g1 g2 H1 _ IH]; [|done].
  by eapply step_leaves_room.
Qed.

Lemma lane_get_new_position d i j ni nj :
  known d → get_new_position i j d = (ni, nj) →
  lane d ni nj = lane d i j ∧ (ni, nj) ≠ (i, j).
Proof.
  intros [-> | [-> | [-> | ->]]] [= <- <-]; (split; [done|]);
    intros [=]; lia.
Qed.

(** A move keeps the sum of every lane. *)
Lemma step_lane_total d k g g' :
  known d → step d g g' → lane_total d k g' = lane_total d k g.
Proof.
  intros Hd [g0 i j ni nj t Hn Hij Hnn Ht Hnone
            |g0 i j ni nj t u Hn Hij Hnn Ht Hu Hv];
    destruct (lane_get_new_position d i j ni nj Hd Hn) as [Hlane Hne];
    unfold lane_total.
  - rewrite (board_sum_put _ _ i j (Some t));
      [|done|by rewrite (cell_put_ne (size g0))].
    rewrite (board_sum_put _ g0 ni nj None) by done.
    rewrite Hlane. destruct (lane d i j =? k); simpl; lia.
  - rewrite (board_sum_put _ _ i j (Some t));
      [|done|by rewrite (cell_put_ne (size g0))].
    rewrite (board_sum_put _ g0 ni nj (Some u)) by done.
    rewrite Hlane. destruct (lane d i j =? k); simpl; lia.
Qed.

Lemma rtc_step_lane_total d k g g' :
  known d → rtc (step d) g g' → lane_total d k g' = lane_total d k g.
Proof.
  intros Hd. induction 1 as [|g g1 g2 H1 _ IH]; [done|].
  rewrite IH. by apply step_lane_total.
Qed.

(** Where the tiles of the board come from after a slide or a merge. *)
Lemma step_tiles_origin d g g' :
  step d g g' →
  (length (tiles g') ≤ length (tiles g))%nat ∧
  ∀ b, b ∈ tiles g' → b ∈ tiles g ∨ ∃ u, u ∈ tiles g ∧ b = update_value u.
Proof.
  intros [g0 i j ni nj t Hn Hij Hnn Ht Hnone
         |g0 i j ni nj t u Hn Hij Hnn Ht Hu Hv].
  - pose proof (slide_tiles g0 i j ni nj t Hij Hnn Ht Hnone) as Hp.
    split; [by rewrite Hp|]. intros b Hb. left. by rewrite <- Hp.
  - destruct (decide ((ni, nj) = (i, j))) as [Heq|Hne].
    + injection Heq as -> ->. rewrite put_put.
      pose proof (tiles_put_clear g0 i j t Ht) as Hp.
      split; [rewrite <- Hp; simpl; lia|].
      intros b Hb. left. rewrite <- Hp. set_solver.
    + destruct (merge_tiles g0 i j ni nj t u) as (rest & Hg & Hg');
        [done..|].
      split; [rewrite Hg, Hg'; simpl; lia|].
      intros b Hb. rewrite Hg' in Hb.
      apply elem_of_cons in Hb as [->|Hb].
      * right. exists u. split; [rewrite Hg; set_solver|done].
      * left. rewrite Hg. set_solver.
Qed.

Lemma rtc_step_tiles_length d g g' :
  rtc (step d) g g' → (length (tiles g') ≤ length (tiles g))%nat.
Proof.
  induction 1 as [|g g1 g2 H1 _ IH]; [done|].
  apply step_tiles_origin in H1 as [Hlen _]. lia.
Qed.

Lemma update_value_power b :
  (∃ k : nat, value b = 2 ^ Z.of_nat (S k)) →
  ∃ k : nat, value (update_value b) = 2 ^ Z.of_nat (S k).
Proof.
  intros [k Hk]. exists (S k). simpl value. rewrite Hk.
  rewrite (Nat2Z.inj_succ (S k)), Z.pow_succ_r by lia. lia.
Qed.

Lemma rtc_step_powers_of_two d g g' :
  rtc (step d) g g' → powers_of_two g → powers_of_two g'.
Proof.
  induction 1 as [|g g1 g2 H1 _ IH]; [done|]. intros Hp. apply IH.
  intros b Hb. apply step_tiles_origin in H1 as [_ Horigin].
  destruct (Horigin b Hb) as [Hin|(u & Hu & ->)]; [by apply Hp|].
  by apply update_value_power, Hp.
Qed.

(** ** [is_valid_move] finds exactly the tiles that can move *)

Lemma for_any_spec body (P : Z → Prop) l :
  (∀ x, x ∈ l → (body x = Ok true ∧ P x) ∨ (body x = Ok false ∧ ¬ P x)) →
  (for_any body l = Ok true ∧ ∃ x, x ∈ l ∧ P x) ∨
  (for_any body l = Ok false ∧ ∀ x, x ∈ l → ¬ P x).
Proof.
  induction l as [|x l IH]; intros Hbody.
  - right. split; [done|]. set_solver.
  - simpl. destruct (Hbody x) as [[-> Hx]|[-> Hx]]; [set_solver| |]; simpl.
    + left. split; [done|]. exists x. set_solver.
    + destruct IH as [[-> (y & Hy & HP)]|[-> Hnone]].
      * intros y Hy. apply Hbody. set_solver.
      * left. split; [done|]. exists y. set_solver.
      * right. split; [done|].
        intros y [->|Hy]%elem_of_cons; [done|by apply Hnone].
Qed.

Lemma movable_spec g d i j :
  wf g → inb (size g) i j →
  (movable g d i j = Ok true ∧ movable_at g d i j) ∨
  (movable g d i j = Ok false ∧ ¬ movable_at g d i j).
Proof.
  intros Hwf Hij. unfold movable, movable_at.
  destruct (wf_cell g i j Hwf Hij) as [s Hs].
  rewrite (slot_cell g i j s) by (apply Hij || done). simpl.
  destruct s as [t|];
    [|right; split; [done|]; intros (_ & ? & ? & ? & ? & _); congruence].
  destruct (get_new_position i j d) as [ni nj] eqn:Hn.
  destruct (in_grid g ni nj) eqn:Hin.
  - apply in_grid_inb in Hin.
    destruct (wf_cell g ni nj Hwf Hin) as [s' Hs'].
    rewrite (slot_cell g ni nj s') by (apply Hin || done). simpl.
    destruct s' as [u|].
    + rewrite (slot_value_cell g ni nj u) by (apply Hin || done).
      rewrite (slot_value_cell g i j t) by (apply Hij || done). simpl.
      destruct (Z.eqb_spec (value u) (value t)) as [Hv|Hv].
      * left. split; [done|]. split; [done|].
        exists t, ni, nj. split_and!; try done. right. by exists u.
      * right. split; [done|].
        intros (_ & t' & ni' & nj' & Ht' & [= <- <-] & _ & [Hnone|Hu]);
          [congruence|].
        destruct Hu as (u' & Hu' & Hv'). congruence.
    + left. split; [done|]. split; [done|].
      exists t, ni, nj. split_and!; try done. by left.
  - apply in_grid_false in Hin. right. split; [done|].
    by intros (_ & t' & ni' & nj' & _ & [= <- <-] & Hnn & _).
Qed.

Lemma is_valid_move_spec g d :
  wf g →
  (is_valid_move g d = Ok true ∧ ∃ i j, movable_at g d i j) ∨
  (is_valid_move g d = Ok false ∧ ∀ i j, ¬ movable_at g d i j).
Proof.
  intros Hwf. unfold is_valid_move.
  destruct (for_any_spec
              (λ i, for_any (λ j, movable g d i j) (range (size g)))
              (λ i, ∃ j, movable_at g d i j) (range (size g)))
    as [[-> (i & _ & j & Hm)]|[-> Hnone]].
  - intros i Hi%elem_of_range.
    destruct (for_any_spec (λ j, movable g d i j)
                (λ j, movable_at g d i j) (range (size g)))
      as [[-> (j & _ & Hm)]|[-> Hnone]].
    + intros j Hj%elem_of_range. by apply movable_spec.
    + left. split; [done|]. by exists j.
    + right. split; [done|]. intros [j Hm].
      apply (Hnone j); [|done]. apply elem_of_range, Hm.
  - left. split; [done|]. by exists i, j.
  - right. split; [done|]. intros i j Hm.
    apply (Hnone i); [apply elem_of_range, Hm|by exists j].
Qed.

(** ** A valid move changes the board *)

Lemma shift_cell_eq fuel d g merged i j :
  shift_cell fuel d g merged i j =
  s ← slot g i j;
  match s with
  | None => Ok (g, merged, i)
  | Some _ =>
      let '(ni, nj) := get_new_position i j d in
      '(g, (i, j), (ni, nj)) ← slide fuel d g i j ni nj;
      merge_step g merged i j ni nj
  end.
Proof. reflexivity. Qed.

Lemma slide_progress d fuel : ∀ g i j ni nj t,
  wf g → inb (size g) i j → get_new_position i j d = (ni, nj) →
  cell g i j = Some (Some t) → (room d (size g) i j ≤ fuel)%nat →
  ∃ g' i' j' ni' nj',
    slide fuel d g i j ni nj = Ok (g', (i', j'), (ni', nj')) ∧
    get_new_position i' j' d = (ni', nj') ∧
    wf g' ∧ size g' = size g ∧ inb (size g) i' j' ∧
    cell g' i' j' = Some (Some t) ∧
    ¬ (inb (size g) ni' nj' ∧ cell g' ni' nj' = Some None) ∧
    ((inb (size g) ni nj ∧ cell g ni nj = Some None ∧ tc (step d) g g') ∨
     (¬ (inb (size g) ni nj ∧ cell g ni nj = Some None) ∧
      g' = g ∧ (i', j') = (i, j) ∧ (ni', nj') = (ni, nj))).
Proof.
  induction fuel as [|fuel IH]; intros g i j ni nj t Hwf Hij Hd Ht Hroom;
    rewrite slide_eq.
  all: destruct (in_grid g ni nj) eqn:Hin;
    [|apply in_grid_false in Hin; simpl; exists g, i, j, ni, nj;
      split_and!; try done; [tauto|right; split; [tauto|done]]].
  all: apply in_grid_inb in Hin.
  all: destruct (wf_cell g ni nj Hwf Hin) as [s Hs].
  all: rewrite (slot_cell g ni nj s) by (apply Hin || done); simpl.
  all: destruct s as [u|];
    [rewrite bool_decide_eq_false_2 by done; simpl;
     exists g, i, j, ni, nj; split_and!; try done;
     [intros [_ ?]; congruence
     |right; split; [intros [_ ?]; congruence|done]]|].
  all: rewrite bool_decide_eq_true_2 by done; simpl.
  all: destruct (get_new_position_room d (size g) i j ni nj Hd Hij Hin)
    as [Heq | [Hne Hr]]; [injection Heq as -> ->; congruence|].
  - lia.
  - rewrite (slot_cell g i j (Some t)) by (apply Hij || done). simpl.
    rewrite (set_slot_cell g ni nj _ None) by (apply Hin || done). simpl.
    rewrite (set_slot_cell _ i j None (Some t));
      [|apply Hij..|by rewrite (cell_put_ne (size g))]. simpl.
    destruct (get_new_position ni nj d) as [ni' nj'] eqn:Hd'.
    assert (step d g (put (put g ni nj (Some t)) i j None)) as Hstep
      by (by eapply step_slide).
    destruct (IH (put (put g ni nj (Some t)) i j None) ni nj ni' nj' t)
      as (g' & i' & j' & ni'' & nj'' & Hsl & Hd'' & Hwf' & Hsz & Hij' & Ht'
          & Hpost & Hcase); [by do 2 apply wf_put|done|done| |simpl; lia|].
    { rewrite (cell_put_ne (size g)) by done.
      apply cell_put_eq. by rewrite Hs. }
    exists g', i', j', ni'', nj''. split_and!; try done.
    left. split_and!; try done.
    destruct Hcase as [(_ & _ & Htc)|(_ & -> & _)].
    + by eapply tc_l.
    + by apply tc_once.
Qed.

Lemma merge_step_spec d g merged i j ni nj t :
  wf g → rect (size g) merged → inb (size g) i j →
  cell g i j = Some (Some t) → get_new_position i j d = (ni, nj) →
  ¬ (inb (size g) ni nj ∧ cell g ni nj = Some None) →
  ∃ g' m',
    merge_step g merged i j ni nj = Ok (g', m', i) ∧
    ((step d g g' ∧ inb (size g) ni nj ∧
      ∃ u, cell g ni nj = Some (Some u) ∧ value u = value t) ∨
     (g' = g ∧ m' = merged ∧
      ¬ (inb (size g) ni nj ∧ mget merged ni nj = Some false ∧
         ∃ u, cell g ni nj = Some (Some u) ∧ value u = value t))).
Proof.
  intros Hwf Hm Hij Ht Hn Hpost. unfold merge_step.
  destruct (in_grid g ni nj) eqn:Hin;
    [|apply in_grid_false in Hin; exists g, merged; split; [done|];
      right; split_and!; try done; tauto].
  apply in_grid_inb in Hin.
  destruct (wf_cell g ni nj Hwf Hin) as [s Hs].
  rewrite (slot_cell g ni nj s) by (apply Hin || done). simpl.
  destruct s as [u|]; [|tauto].
  rewrite (slot_value_cell g ni nj u) by (apply Hin || done).
  rewrite (slot_value_cell g i j t) by (apply Hij || done). simpl.
  destruct (Z.eqb_spec (value u) (value t)) as [Hv|Hv].
  - destruct (rect_mget _ merged ni nj Hm Hin) as [mb Hmb].
    rewrite (getitem2_mget merged ni nj mb) by (apply Hin || done). simpl.
    destruct mb.
    + exists g, merged. split; [done|]. right. split_and!; try done.
      intros (_ & ? & _). congruence.
    + rewrite (set_slot_cell g ni nj _ (Some u)) by (apply Hin || done).
      simpl.
      destruct (cell_put_occupied g ni nj i j (update_value u) t)
        as [x Hx]; [done..|].
      rewrite (set_slot_cell _ i j None (Some x)) by (apply Hij || done).
      simpl.
      rewrite (setitem2_mget merged ni nj true false)
        by (apply Hin || done).
      simpl. eexists _, _. split; [done|]. left. split_and!; try done.
      * by eapply step_merge.
      * by exists u.
  - exists g, merged. split; [done|]. right. split_and!; try done.
    intros (_ & _ & u' & Hu' & Hv'). congruence.
Qed.

Lemma shift_cell_progress d fuel g merged i j :
  wf g → rect (size g) merged →
  (∀ x y, inb (size g) x y → mget merged x y = Some false) →
  inb (size g) i j → (Z.to_nat (size g) ≤ fuel)%nat →
  ∃ g' merged' i',
    shift_cell fuel d g merged i j = Ok (g', merged', i') ∧
    wf g' ∧ size g' = size g ∧ rect (size g) merged' ∧
    0 ≤ i' < size g ∧ rtc (step d) g g' ∧
    ((movable_at g d i j ∧ tc (step d) g g') ∨
     (¬ movable_at g d i j ∧ g' = g ∧ merged' = merged ∧ i' = i)).
Proof.
  intros Hwf Hm Hfalse Hij Hfuel.
  destruct (shift_cell_spec d fuel g merged i j)
    as (g' & m' & i' & Hc & Hwf' & Hsz & Hm' & Hi' & Hsteps); [done..|].
  exists g', m', i'. split_and!; try done; try lia.
  rewrite shift_cell_eq in Hc.
  destruct (wf_cell g i j Hwf Hij) as [s Hs].
  rewrite (slot_cell g i j s) in Hc by (apply Hij || done). simpl in Hc.
  destruct s as [t|].
  2:{ injection Hc as <- <- <-. right. split_and!; try done.
      intros (_ & ? & ? & ? & ? & _). congruence. }
  destruct (get_new_position i j d) as [ni nj] eqn:Hn.
  destruct (slide_progress d fuel g i j ni nj t)
    as (g1 & i1 & j1 & ni1 & nj1 & Hsl & Hd1 & Hwf1 & Hsz1 & Hij1 & Ht1
        & Hpost & Hcase); [done..| |].
  { pose proof (room_le d _ _ _ Hij). lia. }
  rewrite Hsl in Hc. simpl in Hc.
  destruct (merge_step_spec d g1 merged i1 j1 ni1 nj1 t)
    as (g2 & m2 & Hms & Hmcase);
    [done|by rewrite Hsz1|by rewrite Hsz1|done|done|by rewrite Hsz1|].
  rewrite Hms in Hc. injection Hc as <- <- <-.
  destruct Hcase as [(Hnn & Hnone & Htc)|(Hno & -> & [= -> ->] & [= -> ->])].
  - left. split.
    + split; [done|]. exists t, ni, nj. split_and!; try done. by left.
    + destruct Hmcase as [(Hstep & _)|(-> & _)]; [|done].
      eapply tc_rtc_r; [done|]. by apply rtc_once.
  - destruct Hmcase as [(Hstep & Hnn & u & Hu & Hv)|(-> & -> & Hno2)].
    + left. split; [|by apply tc_once].
      split; [done|]. exists t, ni, nj. split_and!; try done.
      right. by exists u.
    + right. split_and!; try done.
      intros (_ & t' & ni' & nj' & Ht' & Hn' & Hnn' & Hmv).
      rewrite Hn in Hn'. injection Hn' as <- <-.
      destruct Hmv as [Hnone|(u & Hu & Hv)]; [by apply Hno|].
      apply Hno2. split_and!; [done|by apply Hfalse|].
      exists u. split; [done|congruence].
Qed.

Lemma shift_row_progress d fuel js : ∀ g merged i,
  wf g → rect (size g) merged →
  (∀ x y, inb (size g) x y → mget merged x y = Some false) →
  0 ≤ i < size g → (∀ j, j ∈ js → 0 ≤ j < size g) →
  (Z.to_nat (size g) ≤ fuel)%nat →
  ∃ g' merged' i',
    shift_row fuel d js g merged i = Ok (g', merged', i') ∧
    wf g' ∧ size g' = size g ∧ rect (size g) merged' ∧
    rtc (step d) g g' ∧
    (((∃ j, j ∈ js ∧ movable_at g d i j) ∧ tc (step d) g g') ∨
     ((∀ j, j ∈ js → ¬ movable_at g d i j) ∧
      g' = g ∧ merged' = merged ∧ i' = i)).
Proof.
  induction js as [|j js IH]; intros g merged i Hwf Hm Hfalse Hi Hjs Hfuel.
  - exists g, merged, i. split_and!; try done. right. set_solver.
  - assert (inb (size g) i j) as Hij by (split; [done|apply Hjs; set_solver]).
    destruct (shift_cell_progress d fuel g merged i j)
      as (g1 & m1 & i1 & Hc & Hwf1 & Hsz1 & Hm1 & Hi1 & Hsteps1 & Hcase);
      [done..|].
    simpl. rewrite Hc. simpl.
    destruct Hcase as [(Hmv & Htc)|(Hmv & -> & -> & ->)].
    + destruct (shift_row_spec d fuel js g1 m1 i1)
        as (g2 & m2 & i2 & Hr & Hwf2 & Hsz2 & Hm2 & Hsteps2);
        [done|by rewrite Hsz1..| |by rewrite Hsz1|].
      { intros j' Hj'. rewrite Hsz1. apply Hjs. set_solver. }
      rewrite Hr. exists g2, m2, i2.
      split_and!; try done; try congruence; [by etrans|].
      left. split; [exists j; set_solver|]. by eapply tc_rtc_r.
    + destruct (IH g merged i)
        as (g2 & m2 & i2 & Hr & Hwf2 & Hsz2 & Hm2 & Hsteps2 & Hcase2);
        [done..| |done|].
      { intros j' Hj'. apply Hjs. set_solver. }
      rewrite Hr. exists g2, m2, i2. split_and!; try done.
      destruct Hcase2 as [((j' & Hj' & Hmv') & Htc)|(Hnone & -> & -> & ->)].
      * left. split; [exists j'; set_solver|done].
      * right. split_and!; try done.
        intros j' [->|Hj']%elem_of_cons; [done|by apply Hnone].
Qed.

Lemma shift_rows_progress d fuel js rows : ∀ g merged,
  wf g → rect (size g) merged →
  (∀ x y, inb (size g) x y → mget merged x y = Some false) →
  (∀ i, i ∈ rows → 0 ≤ i < size g) →
  (∀ j, j ∈ js → 0 ≤ j < size g) →
  (Z.to_nat (size g) ≤ fuel)%nat →
  ∃ g' merged',
    shift_rows fuel d rows js g merged = Ok (g', merged') ∧
    wf g' ∧ size g' = size g ∧ rtc (step d) g g' ∧
    (((∃ i j, i ∈ rows ∧ j ∈ js ∧ movable_at g d i j) ∧ tc (step d) g g') ∨
     ((∀ i j, i ∈ rows → j ∈ js → ¬ movable_at g d i j) ∧ g' = g)).
Proof.
  induction rows as [|i rows IH];
    intros g merged Hwf Hm Hfalse Hrows Hjs Hfuel.
  - exists g, merged. split_and!; try done. right. set_solver.
  - destruct (shift_row_progress d fuel js g merged i)
      as (g1 & m1 & i1 & Hr & Hwf1 & Hsz1 & Hm1 & Hsteps1 & Hcase);
      [done|done|done|apply Hrows; set_solver|done|done|].
    simpl. rewrite Hr. simpl.
    destruct Hcase as [((j & Hj & Hmv) & Htc)|(Hnone & -> & -> & ->)].
    + destruct (shift_rows_spec d fuel js rows g1 m1)
        as (g2 & m2 & Hrs & Hwf2 & Hsz2 & Hsteps2);
        [done|by rewrite Hsz1| | |by rewrite Hsz1|].
      { intros i' Hi'. rewrite Hsz1. apply Hrows. set_solver. }
      { intros j' Hj'. rewrite Hsz1. by apply Hjs. }
      rewrite Hrs. exists g2, m2.
      split_and!; try done; try congruence; [by etrans|].
      left. split; [exists i, j; set_solver|]. by eapply tc_rtc_r.
    + destruct (IH g merged)
        as (g2 & m2 & Hrs & Hwf2 & Hsz2 & Hsteps2 & Hcase2); [done..| |done|done|].
      { intros i' Hi'. apply Hrows. set_solver. }
      rewrite Hrs. exists g2, m2. split_and!; try done.
      destruct Hcase2 as [((i' & j' & Hi' & Hj' & Hmv') & Htc)|(Hnone2 & ->)].
      * left. split; [exists i', j'; set_solver|done].
      * right. split; [|done].
        intros i' j' [->|Hi']%elem_of_cons Hj'; [by apply Hnone|].
        by apply Hnone2.
Qed.

(** The loops of [shift_and_merge] change the board exactly when some
    tile can slide or merge. *)
Lemma shift_tiles_progress d fuel g :
  wf g → (Z.to_nat (size g) ≤ fuel)%nat →
  ∃ g1, shift_tiles fuel g d = Ok g1 ∧ wf g1 ∧ size g1 = size g ∧
        rtc (step d) g g1 ∧
        (((∃ i j, movable_at g d i j) ∧ tc (step d) g g1) ∨
         ((∀ i j, ¬ movable_at g d i j) ∧ g1 = g)).
Proof.
  intros Hwf Hfuel. unfold shift_tiles.
  destruct (shift_rows_progress d fuel (range_order g d) (range_order g d) g
              ((λ _, replicate (Z.to_nat (size g)) false) <$> range (size g)))
    as (g' & m' & Hrs & Hwf' & Hsz & Hsteps & Hcase);
    [done|apply rect_merged_init|by intros; apply merged_init_false
    |by intros ? ?%elem_of_range_order..|done|].
  rewrite Hrs. simpl. exists g'. split_and!; try done.
  destruct Hcase as [((i & j & _ & _ & Hmv) & Htc)|(Hnone & ->)].
  - left. split; [by exists i, j|done].
  - right. split; [|done]. intros i j Hmv.
    apply (Hnone i j); [apply elem_of_range_order, Hmv..|done].
Qed.

(** A tile that has absorbed another one can be absorbed itself later in
    the same pass: the flags of [merged] guard slots, not tiles. *)
Example left_4220_merges_twice :
  cells <$> shift_tiles 4 (row0 (tile 4 (0, 0)) (tile 2 (0, 1))
                             (tile 2 (0, 2)) None) "left"
  = Ok [[Some 8; None; None; None]; no_values; no_values; no_values].
Proof. by vm_compute. Qed.

(** ** The move as a whole *)

Lemma spawned_wf g r g' r' :
  spawned g r g' r' → wf g →
  wf g' ∧ size g' = size g ∧ (r' = r ∨ r' = advance (advance r)).
Proof.
  intros [(_ & -> & ->)|(x & y & v & _ & _ & _ & -> & ->)] Hwf;
    split_and!; try done; [by left|by apply wf_put|by right].
Qed.

Lemma spawned_powers_of_two g r g' r' :
  spawned g r g' r' → powers_of_two g → powers_of_two g'.
Proof.
  intros [(_ & -> & _)|(x & y & v & _ & Hnone & Hv & -> & _)] Hp; [done|].
  intros b. rewrite tiles_put_empty by done.
  intros [->|Hb]%elem_of_cons; [|by apply Hp].
  destruct Hv as [-> | ->]; [by exists 0%nat|by exists 1%nat].
Qed.

Lemma shift_and_merge_ok fuel g d r :
  wf g → (Z.to_nat (size g) ≤ fuel)%nat →
  ∃ moved g2 r2,
    shift_and_merge fuel g d r = Ok (moved, g2, r2) ∧
    wf g2 ∧ size g2 = size g ∧ (r2 = r ∨ r2 = advance (advance r)).
Proof.
  intros Hwf Hfuel. unfold shift_and_merge.
  destruct (is_valid_move_ok g d Hwf) as [[|] ->]; simpl.
  - destruct (shift_tiles_spec d fuel g Hwf Hfuel)
      as (g1 & -> & Hwf1 & Hsz1 & _). simpl.
    destruct (spawn_new_tile_spec g1 r Hwf1) as (g2 & r2 & -> & Hsp). simpl.
    destruct (spawned_wf _ _ _ _ Hsp Hwf1) as (Hwf2 & Hsz2 & Hr).
    exists true, g2, r2. split_and!; try done. congruence.
  - exists false, g, r. split_and!; try done. by left.
Qed.

(** X1: on a board of [size] rows of [size] slots, [shift_and_merge]
    ends for every direction string without raising; the board it
    returns has the same size and shape, and the random source is either
    untouched or two draws further. *)
Theorem shift_and_merge_total (fuel : nat) (g : Grid) (d : string)
    (r : Random) :
  wf g → (Z.to_nat (size g) ≤ fuel)%nat →
  ∃ moved g2 r2,
    shift_and_merge fuel g d r = Ok (moved, g2, r2) ∧
    wf g2 ∧ size g2 = size g ∧ (r2 = r ∨ r2 = advance (advance r)).
Proof. apply shift_and_merge_ok. Qed.

Lemma shift_and_merge_total_witness :
  ∃ moved g2 r2,
    shift_and_merge 4 (row0 (tile 2 (0, 0)) None (tile 2 (0, 2)) None) "up"
      (const_tape 3) = Ok (moved, g2, r2) ∧
    wf g2 ∧
    size g2 = size (row0 (tile 2 (0, 0)) None (tile 2 (0, 2)) None) ∧
    (r2 = const_tape 3 ∨ r2 = advance (advance (const_tape 3))).
Proof.
  apply (shift_and_merge_total 4
           (row0 (tile 2 (0, 0)) None (tile 2 (0, 2)) None) "up"
           (const_tape 3)).
  - apply wf_row0.
  - simpl. lia.
Defined.

(** X2: on a well-formed board [is_valid_move] raises nothing, and it
    answers [True] exactly when some tile has, one step in the
    direction, a slot of the board that is empty or holds a tile of the
    same value. *)
Theorem is_valid_move_finds_movable (g : Grid) (d : string) :
  wf g →
  ∃ b, is_valid_move g d = Ok b ∧ (b = true ↔ ∃ i j, movable_at g d i j).
Proof.
  intros Hwf.
  destruct (is_valid_move_spec g d Hwf) as [[-> Hm]|[-> Hm]].
  - by exists true.
  - exists false. split; [done|]. split; [done|].
    intros (i & j & Hij). by destruct (Hm i j).
Qed.

Lemma is_valid_move_finds_movable_witness :
  ∃ b, is_valid_move (row0 (tile 2 (0, 0)) None None None) "left" = Ok b ∧
       (b = true ↔
        ∃ i j, movable_at (row0 (tile 2 (0, 0)) None None None) "left" i j).
Proof.
  apply (is_valid_move_finds_movable
           (row0 (tile 2 (0, 0)) None None None) "left").
  apply wf_row0.
Defined.

(** X3: the gate of [shift_and_merge] is exact: [is_valid_move] answers
    [True] exactly when the loops of [shift_and_merge], run on the same
    board, end with a different board. *)
Theorem valid_move_iff_board_changes (fuel : nat) (g : Grid) (d : string) :
  wf g → (Z.to_nat (size g) ≤ fuel)%nat →
  ∃ b g1,
    is_valid_move g d = Ok b ∧ shift_tiles fuel g d = Ok g1 ∧
    (b = true ↔ g1 ≠ g).
Proof.
  intros Hwf Hfuel.
  destruct (shift_tiles_progress d fuel g Hwf Hfuel)
    as (g1 & Hst & _ & _ & _ & Hcase).
  destruct (is_valid_move_spec g d Hwf) as [[-> (i & j & Hm)]|[-> Hm]].
  - exists true, g1. split_and!; try done. split; [intros _|done].
    destruct Hcase as [(_ & Htc)|(Hnone & _)];
      [by eapply tc_step_changes|by destruct (Hnone i j)].
  - exists false, g1. split_and!; try done. split; [done|]. intros Hne.
    destruct Hcase as [((i & j & Hmv) & _)|(_ & ->)];
      [by destruct (Hm i j)|done].
Qed.

Lemma valid_move_iff_board_changes_witness :
  ∃ b g1,
    is_valid_move (row0 (tile 2 (0, 0)) (tile 4 (0, 1)) None None) "down"
      = Ok b ∧
    shift_tiles 4 (row0 (tile 2 (0, 0)) (tile 4 (0, 1)) None None) "down"
      = Ok g1 ∧
    (b = true ↔ g1 ≠ row0 (tile 2 (0, 0)) (tile 4 (0, 1)) None None).
Proof.
  apply (valid_move_iff_board_changes 4
           (row0 (tile 2 (0, 0)) (tile 4 (0, 1)) None None) "down").
  - apply wf_row0.
  - simpl. lia.
Defined.

(** X4: a move that passes the gate always spawns: the loops leave an
    empty slot, so [shift_and_merge] returns [True] with exactly one
    tile of value 2 or 4 added to the board the loops left, two draws
    are consumed, and the board holds at most one tile more than before
    the move. *)
Theorem accepted_move_spawns_one_tile (fuel : nat) (g : Grid) (d : string)
    (r : Random) :
  wf g → (Z.to_nat (size g) ≤ fuel)%nat → is_valid_move g d = Ok true →
  ∃ g1 g2,
    shift_tiles fuel g d = Ok g1 ∧ one_tile_spawned g1 g2 ∧
    shift_and_merge fuel g d r = Ok (true, g2, advance (advance r)) ∧
    (length (tiles g2) ≤ S (length (tiles g)))%nat.
Proof.
  intros Hwf Hfuel Hvalid.
  destruct (shift_tiles_progress d fuel g Hwf Hfuel)
    as (g1 & Hst & Hwf1 & Hsz1 & Hsteps & Hcase).
  destruct (is_valid_move_spec g d Hwf) as [[_ (i & j & Hm)]|[Hf _]];
    [|congruence].
  destruct Hcase as [(_ & Htc)|(Hnone & _)]; [|by destruct (Hnone i j)].
  destruct (tc_step_leaves_room d g g1 Htc) as (x & y & Hxy & Hempty).
  destruct (spawn_new_tile_spec g1 r Hwf1) as (g2 & r2 & Hsp & Hspd).
  destruct (spawned_on_room _ _ _ _ x y Hspd Hxy Hempty)
    as (x' & y' & v & Hxy' & Hnone' & Hv & -> & ->).
  eexists g1, _. split_and!; [done|by exists x', y', v| |].
  - unfold shift_and_merge. rewrite Hvalid. simpl. rewrite Hst. simpl.
    by rewrite Hsp.
  - rewrite tiles_put_empty by done. simpl.
    apply le_n_S. by eapply rtc_step_tiles_length.
Qed.

Lemma accepted_move_spawns_one_tile_witness :
  ∃ g1 g2,
    shift_tiles 4 (row0 (tile 2 (0, 0)) None (tile 2 (0, 2)) None) "left"
      = Ok g1 ∧
    one_tile_spawned g1 g2 ∧
    shift_and_merge 4 (row0 (tile 2 (0, 0)) None (tile 2 (0, 2)) None) "left"
      (const_tape 1) = Ok (true, g2, advance (advance (const_tape 1))) ∧
    (length (tiles g2)
     ≤ S (length (tiles (row0 (tile 2 (0, 0)%Z) None (tile 2 (0, 2)%Z)
                           None))))%nat.
Proof.
  apply (accepted_move_spawns_one_tile 4
           (row0 (tile 2 (0, 0)) None (tile 2 (0, 2)) None) "left"
           (const_tape 1)).
  - apply wf_row0.
  - simpl. lia.
  - vm_compute. reflexivity.
Defined.

(** X5: a move never carries value from one lane to another: the loops
    of a "left" or "right" move keep the sum of the tile values of every
    row, and those of an "up" or "down" move keep the sum of every
    column. *)
Theorem move_keeps_lane_totals (fuel : nat) (g : Grid) (d : string) :
  wf g → known d → (Z.to_nat (size g) ≤ fuel)%nat →
  ∃ g1, shift_tiles fuel g d = Ok g1 ∧
        ∀ k, lane_total d k g1 = lane_total d k g.
Proof.
  intros Hwf Hd Hfuel.
  destruct (shift_tiles_spec d fuel g Hwf Hfuel) as (g1 & Hst & _ & _ & Hsteps).
  exists g1. split; [done|]. intros k. by apply rtc_step_lane_total.
Qed.

Lemma move_keeps_lane_totals_witness :
  ∃ g1,
    shift_tiles 4 (row0 (tile 2 (0, 0)) (tile 4 (0, 1)) None None) "down"
      = Ok g1 ∧
    ∀ k, lane_total "down" k g1
         = lane_total "down" k
             (row0 (tile 2 (0, 0)) (tile 4 (0, 1)) None None).
Proof.
  apply (move_keeps_lane_totals 4
           (row0 (tile 2 (0, 0)) (tile 4 (0, 1)) None None) "down").
  - apply wf_row0.
  - unfold known. tauto.
  - simpl. lia.
Defined.

Lemma powers_of_two_blank n : powers_of_two (blank n).
Proof.
  intros b. rewrite (all_empty_tiles (blank n) (wf_blank n));
    [set_solver|]. intros x y Hxy. by apply cell_blank.
Qed.

(** X6: tile values stay among 2, 4, 8, ...: a new grid holds only such
    values, and when a well-formed board holds only such values, so does
    the board that [shift_and_merge] returns, for every direction
    string. *)
Theorem values_stay_powers_of_two :
  (∀ n r, ∃ g r', Grid_init n r = Ok (g, r') ∧ powers_of_two g) ∧
  (∀ fuel g d r,
     wf g → (Z.to_nat (size g) ≤ fuel)%nat → powers_of_two g →
     ∃ moved g2 r2,
       shift_and_merge fuel g d r = Ok (moved, g2, r2) ∧ powers_of_two g2).
Proof.
  split.
  - intros n r. unfold Grid_init. fold (blank n).
    destruct (spawn_new_tile_spec (blank n) r (wf_blank n))
      as (g1 & r1 & -> & Hsp1). simpl.
    destruct (spawned_wf _ _ _ _ Hsp1 (wf_blank n)) as (Hwf1 & _ & _).
    destruct (spawn_new_tile_spec g1 r1 Hwf1) as (g2 & r2 & -> & Hsp2).
    exists g2, r2. split; [done|].
    eapply spawned_powers_of_two; [done|].
    eapply spawned_powers_of_two; [done|]. apply powers_of_two_blank.
  - intros fuel g d r Hwf Hfuel Hp. unfold shift_and_merge.
    destruct (is_valid_move_ok g d Hwf) as [[|] ->]; simpl;
      [|by exists false, g, r].
    destruct (shift_tiles_spec d fuel g Hwf Hfuel)
      as (g1 & -> & Hwf1 & _ & Hsteps). simpl.
    destruct (spawn_new_tile_spec g1 r Hwf1) as (g2 & r2 & -> & Hsp). simpl.
    exists true, g2, r2. split; [done|].
    eapply spawned_powers_of_two; [done|].
    by eapply rtc_step_powers_of_two.
Qed.

Lemma powers_of_two_row0_2_2 :
  powers_of_two (row0 (tile 2 (0, 0)) None (tile 2 (0, 2)) None).
Proof.
  intros b Hb. exists 0%nat. vm_compute in Hb.
  repeat (apply elem_of_cons in Hb as [->|Hb]; [done|]).
  by apply elem_of_nil in Hb.
Defined.

Lemma values_stay_powers_of_two_witness :
  ∃ moved g2 r2,
    shift_and_merge 4 (row0 (tile 2 (0, 0)) None (tile 2 (0, 2)) None) "right"
      (const_tape 0) = Ok (moved, g2, r2) ∧
    powers_of_two g2.
Proof.
  apply (proj2 values_stay_powers_of_two 4%nat
           (row0 (tile 2 (0, 0)) None (tile 2 (0, 2)) None) "right"
           (const_tape 0)).
  - apply wf_row0.
  - simpl. lia.
  - apply powers_of_two_row0_2_2.
Defined.

(** X7: a board without tiles admits no move: for every direction string
    [is_valid_move] answers [False], and [shift_and_merge] returns
    [False] and spawns nothing. *)
Theorem empty_board_has_no_move (fuel : nat) (g : Grid) (d : string)
    (r : Random) :
  wf g → tiles g = [] →
  is_valid_move g d = Ok false ∧
  shift_and_merge fuel g d r = Ok (false, g, r).
Proof.
  intros Hwf Hnil.
  assert (is_valid_move g d = Ok false) as Hv.
  { destruct (is_valid_move_spec g d Hwf)
      as [[_ (i & j & _ & t & _ & _ & Ht & _)]|[-> _]]; [|done].
    assert (t ∈ tiles g) as Hin; [|rewrite Hnil in Hin; set_solver].
    apply list_elem_of_omap. exists (Some t). split; [|done].
    by eapply mget_concat. }
  split; [done|]. unfold shift_and_merge. by rewrite Hv.
Qed.

Lemma empty_board_has_no_move_witness :
  is_valid_move (blank 3) "up" = Ok false ∧
  shift_and_merge 3 (blank 3) "up" (const_tape 0)
  = Ok (false, blank 3, const_tape 0).
Proof.
  apply (empty_board_has_no_move 3 (blank 3) "up" (const_tape 0)).
  - apply wf_blank.
  - reflexivity.
Defined.

Lemma play_move_known fuel g d r :
  known d →
  play_move fuel (controller g) d r
  = '(moved, g2, r2) ← shift_and_merge fuel g d r;
    Ok (controller g2, r2,
        if moved : bool then print_grid g2
        else [PrintStr "Move not possible!"]).
Proof.
  destruct default_moves_known as (Hu & Hdn & Hl & Hr).
  intros Hd. unfold play_move, controller. cbn [moves game_grid].
  destruct Hd as [-> | [-> | [-> | ->]]];
    rewrite ?Hu, ?Hdn, ?Hl, ?Hr; unfold move;
    by destruct (shift_and_merge _ _ _ _) as [[[[] ?] ?]| |].
Qed.

(** X8: for each of the four keys, [play_move] runs [shift_and_merge]
    with that very direction on the controller's grid, keeps the grid
    and the random source it returns, and prints the new grid when the
    move was made and "Move not possible!" when it was not. *)
Theorem play_move_dispatches (fuel : nat) (g : Grid) (d : string)
    (r : Random) :
  known d →
  play_move fuel (controller g) d r
  = '(moved, g2, r2) ← shift_and_merge fuel g d r;
    Ok (controller g2, r2,
        if moved : bool then print_grid g2
        else [PrintStr "Move not possible!"]).
Proof. apply play_move_known. Qed.

Lemma known_left : known "left".
Proof. unfold known. tauto. Defined.

Lemma play_move_dispatches_witness :
  play_move 4 (controller (row0 (tile 2 (0, 0)) None None None)) "left"
    (const_tape 0)
  = '(moved, g2, r2) ←
      shift_and_merge 4 (row0 (tile 2 (0, 0)) None None None) "left"
        (const_tape 0);
    Ok (controller g2, r2,
        if moved : bool then print_grid g2
        else [PrintStr "Move not possible!"]).
Proof.
  apply (play_move_dispatches 4 (row0 (tile 2 (0, 0)) None None None)
           "left" (const_tape 0)).
  apply known_left.
Defined.

(** X9: on a well-formed board with an empty slot, [spawn_new_tile]
    consumes two draws and writes one slot that was empty: that slot
    receives a tile of value 2 or 4 that stores the slot's coordinates,
    every other slot is as it was, the board holds one tile more and its
    total has grown by the new value. *)
Theorem spawn_fills_one_empty_slot (g : Grid) (r : Random) (x y : Z) :
  wf g → inb (size g) x y → cell g x y = Some None →
  ∃ g' x' y' v,
    spawn_new_tile g r = Ok (g', advance (advance r)) ∧
    inb (size g) x' y' ∧ cell g x' y' = Some None ∧ (v = 2 ∨ v = 4) ∧
    cell g' x' y' = Some (Some (Block_init x' y' v)) ∧
    (∀ i j, inb (size g) i j → (i, j) ≠ (x', y') → cell g' i j = cell g i j) ∧
    wf g' ∧ size g' = size g ∧
    length (tiles g') = S (length (tiles g)) ∧
    total g' = total g + v.
Proof.
  intros Hwf Hxy Hnone.
  destruct (spawn_new_tile_spec g r Hwf) as (g' & r' & Hsp & Hspd).
  destruct (spawned_on_room _ _ _ _ x y Hspd Hxy Hnone)
    as (x' & y' & v & Hxy' & Hnone' & Hv & -> & ->).
  eexists _, x', y', v. split_and!; try done.
  - apply cell_put_eq. by rewrite Hnone'.
  - intros i j Hij Hne. by rewrite (cell_put_ne (size g)).
  - by apply wf_put.
  - by rewrite tiles_put_empty.
  - rewrite total_put_empty by done. simpl. lia.
Qed.

Lemma spawn_fills_one_empty_slot_witness :
  ∃ g' x' y' v,
    spawn_new_tile (row0 (tile 2 (0, 0)) None None None) (const_tape 0)
      = Ok (g', advance (advance (const_tape 0))) ∧
    inb (size (row0 (tile 2 (0, 0)) None None None)) x' y' ∧
    cell (row0 (tile 2 (0, 0)) None None None) x' y' = Some None ∧
    (v = 2 ∨ v = 4) ∧
    cell g' x' y' = Some (Some (Block_init x' y' v)) ∧
    (∀ i j, inb (size (row0 (tile 2 (0, 0)) None None None)) i j →
            (i, j) ≠ (x', y') →
            cell g' i j = cell (row0 (tile 2 (0, 0)) None None None) i j) ∧
    wf g' ∧ size g' = size (row0 (tile 2 (0, 0)) None None None) ∧
    length (tiles g')
    = S (length (tiles (row0 (tile 2 (0, 0)) None None None))) ∧
    total g' = total (row0 (tile 2 (0, 0)) None None None) + v.
Proof.
  apply (spawn_fills_one_empty_slot (row0 (tile 2 (0, 0)) None None None)
           (const_tape 0) 0 1).
  - apply wf_row0.
  - unfold inb. simpl. lia.
  - reflexivity.
Defined.

(** X10: the sizes below 2 degenerate without an exception.  For
    [n <= 0] the new grid has no row and no draw is consumed.  For
    [n = 1] the first spawn fills the only slot with a 2 or a 4 and the
    second finds the grid full: one tile, two draws. *)
Theorem small_grids :
  (∀ n r, n ≤ 0 → Grid_init n r = Ok ({| size := n; grid := [] |}, r)) ∧
  (∀ r, ∃ v, (v = 2 ∨ v = 4) ∧
             Grid_init 1 r
             = Ok ({| size := 1; grid := [[Some (Block_init 0 0 v)]] |},
                   advance (advance r))).
Proof.
  split.
  - intros n r Hn.
    assert (blank n = {| size := n; grid := [] |}) as Hblank.
    { unfold blank, range. by replace (Z.to_nat n) with 0%nat by lia. }
    assert (∀ r', spawn_new_tile {| size := n; grid := [] |} r'
                  = Ok ({| size := n; grid := [] |}, r')) as Hspawn.
    { intros r'. unfold spawn_new_tile, empty_positions, range. cbn [size].
      by replace (Z.to_nat n) with 0%nat by lia. }
    unfold Grid_init. fold (blank n). rewrite Hblank, Hspawn. simpl.
    apply Hspawn.
  - intros r. unfold Grid_init. fold (blank 1).
    destruct (spawn_new_tile_spec (blank 1) r (wf_blank 1))
      as (g1 & r1 & Hs1 & Hsp1).
    destruct (spawned_on_room _ _ _ _ 0 0 Hsp1)
      as (x & y & v & [Hx Hy] & _ & Hv & -> & ->); [done..|].
    simpl in Hx, Hy.
    assert (x = 0) as -> by lia. assert (y = 0) as -> by lia.
    exists v. split; [done|]. rewrite Hs1. simpl.
    apply (spawn_new_tile_full
             {| size := 1; grid := [[Some (Block_init 0 0 v)]] |}).
    intros i j [Hi Hj]. simpl in Hi, Hj.
    assert (i = 0) as -> by lia. assert (j = 0) as -> by lia.
    by eexists.
Qed.

Lemma small_grids_witness :
  Grid_init 0 (const_tape 7) = Ok ({| size := 0; grid := [] |}, const_tape 7).
Proof. apply (proj1 small_grids 0 (const_tape 7)). lia. Defined.

#[global] Instance known_dec d : Decision (known d).
Proof. unfold known. apply _. Defined.

Lemma default_moves_domain d : is_Some (default_moves !! d) ↔ known d.
Proof.
  split.
  - intros Hsome. destruct (decide (known d)) as [|Hd]; [done|].
    rewrite (default_moves_unknown d Hd) in Hsome. by destruct Hsome.
  - destruct default_moves_known as (Hu & Hdn & Hl & Hr).
    intros [-> | [-> | [-> | ->]]]; by eexists.
Qed.

(** X11: [GameController()] never raises: it consumes four draws and
    holds a well-formed 4 by 4 grid with exactly two tiles and a
    dispatch table whose keys are exactly "up", "down", "left" and
    "right". *)
Theorem new_controller (r : Random) :
  ∃ c,
    GameController_init r
      = Ok (c, advance (advance (advance (advance r)))) ∧
    (∀ d, is_Some (moves c !! d) ↔ known d) ∧
    wf (game_grid c) ∧ size (game_grid c) = 4 ∧
    length (tiles (game_grid c)) = 2%nat.
Proof.
  destruct (Grid_init_spec 4 r) as (g1 & g & _ & Hsp1 & _ & Hsp2 & Hinit);
    [lia|].
  destruct (one_tile_spawned_tiles _ _ Hsp1) as (Hsz1 & Hwf1 & b1 & _ & Ht1).
  destruct (one_tile_spawned_tiles _ _ Hsp2) as (Hsz2 & Hwf2 & b2 & _ & Ht2).
  rewrite (all_empty_tiles (blank 4) (wf_blank 4)) in Ht1
    by (intros x y Hxy; by apply cell_blank).
  rewrite Ht1 in Ht2.
  exists (controller g). unfold GameController_init. rewrite Hinit.
  split_and!; try done.
  - apply default_moves_domain.
  - apply Hwf2, Hwf1, wf_blank.
  - cbn [game_grid controller]. by rewrite Hsz2, Hsz1.
  - cbn [game_grid controller]. by rewrite Ht2.
Qed.

Lemma print_grid_nonempty g : print_grid g ≠ [].
Proof. unfold print_grid. by destruct (_ <$> grid g). Qed.

(** X12: on a controller whose grid is well-formed, [play_move] never
    raises, whatever string it is given: it returns a controller with
    the same dispatch table and a well-formed grid of the same size, and
    it always prints something. *)
Theorem play_move_total (fuel : nat) (g : Grid) (d : string) (r : Random) :
  wf g → (Z.to_nat (size g) ≤ fuel)%nat →
  ∃ g2 r2 out,
    play_move fuel (controller g) d r = Ok (controller g2, r2, out) ∧
    wf g2 ∧ size g2 = size g ∧ out ≠ [].
Proof.
  intros Hwf Hfuel. destruct (decide (known d)) as [Hd|Hd].
  - rewrite (play_move_known fuel g d r Hd).
    destruct (shift_and_merge_ok fuel g d r Hwf Hfuel)
      as (moved & g2 & r2 & -> & Hwf2 & Hsz2 & _). simpl.
    eexists g2, r2, _. split_and!; try done.
    destruct moved; [apply print_grid_nonempty|done].
  - rewrite (play_move_unknown fuel g d r Hd).
    by exists g, r, [PrintStr "Invalid move"].
Qed.

Lemma play_move_total_witness :
  ∃ g2 r2 out,
    play_move 4 (controller (row0 (tile 2 (0, 0)) None None None)) "right"
      (const_tape 0) = Ok (controller g2, r2, out) ∧
    wf g2 ∧ size g2 = size (row0 (tile 2 (0, 0)) None None None) ∧
    out ≠ [].
Proof.
  apply (play_move_total 4 (row0 (tile 2 (0, 0)) None None None) "right"
           (const_tape 0)).
  - apply wf_row0.
  - simpl. lia.
Defined.

(** ** [print_grid] *)

Lemma print_rows_cells g :
  (λ row : list (option Block),
     PrintList ((λ block, match block with
                          | Some b => value b
                          | None => 0
                          end) <$> row)) <$> grid g
  = (λ row : list (option Z), PrintList (default 0 <$> row)) <$> cells g.
Proof.
  unfold cells. rewrite <- list_fmap_compose. apply list_fmap_ext.
  intros _ row _. simpl. f_equal. rewrite <- list_fmap_compose.
  apply list_fmap_ext. by intros _ [b|] _.
Qed.

Lemma default_row_inj (l l' : list (option Z)) :
  Some 0 ∉ l → Some 0 ∉ l' → default 0 <$> l = default 0 <$> l' → l = l'.
Proof.
  revert l'. induction l as [|x l IH]; intros [|x' l'] Hl Hl' Heq;
    try done.
  rewrite !fmap_cons in Heq. injection Heq as Hx Heq.
  apply not_elem_of_cons in Hl as [Hx0 Hl].
  apply not_elem_of_cons in Hl' as [Hx0' Hl'].
  f_equal; [|by apply IH].
  destruct x as [v|], x' as [v'|]; simpl in Hx; congruence.
Qed.

Lemma default_rows_inj (m m' : list (list (option Z))) :
  (∀ row, row ∈ m → Some 0 ∉ row) → (∀ row, row ∈ m' → Some 0 ∉ row) →
  (λ row : list (option Z), PrintList (default 0 <$> row)) <$> m
  = (λ row : list (option Z), PrintList (default 0 <$> row)) <$> m' →
  m = m'.
Proof.
  revert m'. induction m as [|row m IH]; intros [|row' m'] Hm Hm' Heq;
    try done.
  rewrite !fmap_cons in Heq. injection Heq as Hrow Heq.
  f_equal.
  - apply default_row_inj; [apply Hm|apply Hm'|done]; set_solver.
  - apply IH; [| |done]; intros r Hr; [apply Hm|apply Hm']; set_solver.
Qed.

Lemma cells_no_zero g :
  (∀ b, b ∈ tiles g → value b ≠ 0) → ∀ row, row ∈ cells g → Some 0 ∉ row.
Proof.
  intros Hnz row (row0 & -> & Hrow0)%list_elem_of_fmap
    (s & Hs & Hin)%list_elem_of_fmap.
  destruct s as [b|]; [|done]. injection Hs as Hb.
  apply (Hnz b); [|done].
  apply list_elem_of_omap. exists (Some b). split; [|done].
  apply list_elem_of_In, in_concat. exists row0.
  split; by apply list_elem_of_In.
Qed.

(** X13: what [print_grid] prints does not depend on the positions the
    tiles store, and as long as no tile has the value 0 it shows the
    board without loss: two boards print alike exactly when they hold
    the same values in the same slots. *)
Theorem print_grid_shows_values (g g' : Grid) :
  (∀ b, b ∈ tiles g → value b ≠ 0) → (∀ b, b ∈ tiles g' → value b ≠ 0) →
  (print_grid g = print_grid g' ↔ cells g = cells g').
Proof.
  intros Hnz Hnz'. unfold print_grid. rewrite !print_rows_cells. split.
  - intros Heq%app_inj_tail. destruct Heq as [Heq _].
    by apply default_rows_inj; [apply cells_no_zero..|].
  - by intros ->.
Qed.

Lemma print_grid_shows_values_witness :
  print_grid (row0 (tile 2 (0, 0)) None None None)
  = print_grid (row0 (tile 2 (3, 1)) None None None)
  ↔ cells (row0 (tile 2 (0, 0)) None None None)
    = cells (row0 (tile 2 (3, 1)) None None None).
Proof.
  apply (print_grid_shows_values (row0 (tile 2 (0, 0)) None None None)
           (row0 (tile 2 (3, 1)) None None None)).
  - intros b Hb. vm_compute in Hb.
    apply elem_of_cons in Hb as [->|Hb]; [done|].
    by apply elem_of_nil in Hb.
  - intros b Hb. vm_compute in Hb.
    apply elem_of_cons in Hb as [->|Hb]; [done|].
    by apply elem_of_nil in Hb.
Defined.

(** ** The comprehension of [spawn_new_tile] *)

#[global] Instance Block_eq_dec : EqDecision Block.
Proof. solve_decision. Defined.

Lemma empty_in_row_filter g i js :
  wf g → 0 ≤ i < size g → (∀ j, j ∈ js → 0 ≤ j < size g) →
  empty_in_row g i js
  = Ok (filter (λ c : Z * Z, cell g c.1 c.2 = Some None)
               ((λ j, (i, j)) <$> js)).
Proof.
  intros Hwf Hi. induction js as [|j js IH]; intros Hjs; [done|].
  assert (inb (size g) i j) as Hij by (split; [done|apply Hjs; set_solver]).
  destruct (wf_cell g i j Hwf Hij) as [s Hs].
  rewrite fmap_cons. cbn [empty_in_row].
  rewrite (slot_cell g i j s) by (apply Hij || done).
  rewrite IH by (intros j' Hj'; apply Hjs; set_solver).
  destruct s as [b|].
  - by rewrite filter_cons_False by (simpl; by rewrite Hs).
  - by rewrite filter_cons_True by (simpl; by rewrite Hs).
Qed.

Lemma empty_in_rows_filter g rows :
  wf g → (∀ i, i ∈ rows → 0 ≤ i < size g) →
  empty_in_rows g rows
  = Ok (filter (λ c : Z * Z, cell g c.1 c.2 = Some None)
               (i ← rows; (λ j, (i, j)) <$> range (size g))).
Proof.
  intros Hwf. induction rows as [|i rows IH]; intros Hrows; [done|].
  cbn [empty_in_rows]. rewrite empty_in_row_filter;
    [|done|apply Hrows; set_solver|by intros j Hj%elem_of_range].
  rewrite IH by (intros i' Hi'; apply Hrows; set_solver).
  change ((i :: rows) ≫= λ i0, (λ j, (i0, j)) <$> range (size g))
    with (((λ j, (i, j)) <$> range (size g))
          ++ (rows ≫= λ i0, (λ j, (i0, j)) <$> range (size g))).
  by rewrite filter_app.
Qed.

(** X14: the list of candidates that [spawn_new_tile] draws from is the
    row-by-row list of the board's coordinates with the occupied slots
    left out: every empty slot occurs in it exactly once, and nothing
    else does. *)
Theorem empty_positions_lists_empty_slots_once (g : Grid) :
  wf g →
  ∃ ep,
    empty_positions g = Ok ep ∧
    ep = filter (λ c : Z * Z, cell g c.1 c.2 = Some None) (coords (size g)) ∧
    NoDup ep ∧
    ∀ x y, (x, y) ∈ ep ↔ inb (size g) x y ∧ cell g x y = Some None.
Proof.
  intros Hwf. eexists. split_and!.
  - unfold empty_positions. apply empty_in_rows_filter; [done|].
    by intros i Hi%elem_of_range.
  - done.
  - apply NoDup_filter, NoDup_coords.
  - intros x y. rewrite list_elem_of_filter. simpl.
    fold (coords (size g)). rewrite elem_of_coords. tauto.
Qed.

Lemma empty_positions_lists_empty_slots_once_witness :
  ∃ ep,
    empty_positions full_2x2 = Ok ep ∧
    ep = filter (λ c : Z * Z, cell full_2x2 c.1 c.2 = Some None)
           (coords (size full_2x2)) ∧
    NoDup ep ∧
    ∀ x y, (x, y) ∈ ep ↔
           inb (size full_2x2) x y ∧ cell full_2x2 x y = Some None.
Proof.
  apply (empty_positions_lists_empty_slots_once full_2x2).
  split; [done|]. intros row Hrow. simpl in Hrow.
  repeat (apply elem_of_cons in Hrow as [->|Hrow]; [done|]).
  by apply elem_of_nil in Hrow.
Defined.

(** The lanes of "left" are the rows and those of "down" the columns. *)
Example lane_totals_of_a_row :
  lane_total "left" 0 (row0 (tile 2 (0, 0)) (tile 4 (0, 1)) None None) = 6 ∧
  lane_total "left" 1 (row0 (tile 2 (0, 0)) (tile 4 (0, 1)) None None) = 0 ∧
  lane_total "down" 0 (row0 (tile 2 (0, 0)) (tile 4 (0, 1)) None None) = 2 ∧
  lane_total "down" 1 (row0 (tile 2 (0, 0)) (tile 4 (0, 1)) None None) = 4.
Proof. by vm_compute. Qed.
